(** * World CIDRs manager (package worldcidrs): reconciliation of the
    desired CIDR sets with the world-CIDR BPF map.

    The manager ([Manager], [OnAddWorldCIDRSet], [OnDeleteWorldCIDRSet],
    [addMissingCIDRs], [removeUnusedCIDRs], [reconcile],
    [runReconciliationAfterK8sSync]) is embedded from the Go source.  The
    package worldcidrsmap it calls (key type, [Add], [Delete],
    [IterateWithCallback]) is not part of the sources at hand and is
    modelled from the specification; every such definition says so. *)

From stdpp Require Import gmap strings list fin_maps.

Local Open Scope Z_scope.

(** ** Network prefixes *)

(** [net.IPNet] restricted to IPv4: the address as a 32-bit big-endian
    integer and the mask as its number of leading one bits
    ([net.CIDRMask(ones, 32)]).  The slices of the manager hold pointers to
    such values; a nil pointer among them is not modelled. *)
Record IPNet := mkIPNet { IP : Z; Mask : Z }.

Global Instance IPNet_eq_dec : EqDecision IPNet.
Proof. solve_decision. Defined.

(** [net.CIDRMask(ones, 32)] as a 32-bit integer. *)
Definition CIDRMask (ones : Z) : Z := Z.shiftl (Z.ones ones) (32 - ones).

(** ** Keys and values of the world-CIDR map *)

(** Modelled from the spec: the type [WorldCIDRKey4] of package
    worldcidrsmap is missing.  A table entry is keyed by "address + prefix
    length", and "two representations of the same network (same prefix
    length, same address after masking to that prefix) must compare equal":
    a key is a pair whose address is already masked. *)
Record rawKey4 := mkRawKey4 { PrefixLen : Z; KeyIP : Z }.

Global Instance rawKey4_eq_dec : EqDecision rawKey4.
Proof. solve_decision. Defined.

Global Instance rawKey4_countable : Countable rawKey4.
Proof.
  refine (inj_countable' (λ k, (PrefixLen k, KeyIP k))
                         (λ p, mkRawKey4 p.1 p.2) _).
  by intros [].
Defined.

Definition masked (k : rawKey4) : Prop :=
  KeyIP k = Z.land (KeyIP k) (CIDRMask (PrefixLen k)).

Global Instance masked_dec k : Decision (masked k).
Proof. unfold masked. apply _. Defined.

Definition WorldCIDRKey4 : Type := dsig masked.

(** Modelled from the spec: the value type [WorldCIDRVal] is missing; the
    spec calls it "an opaque value". *)
Definition WorldCIDRVal : Type := Z.

Lemma land_CIDRMask_idemp ip ones :
  Z.land ip (CIDRMask ones) = Z.land (Z.land ip (CIDRMask ones)) (CIDRMask ones).
Proof. by rewrite <-Z.land_assoc, Z.land_diag. Qed.

(** Modelled from the spec: [NewWorldCIDRKey4] is missing; the key of a
    prefix is its "masked address + prefix length". *)
Definition NewWorldCIDRKey4 (cidr : IPNet) : WorldCIDRKey4 :=
  dexist (mkRawKey4 (Mask cidr) (Z.land (IP cidr) (CIDRMask (Mask cidr))))
         (land_CIDRMask_idemp (IP cidr) (Mask cidr)).

(** Modelled from the spec: [WorldCIDRKey4.GetCIDR] is missing; it gives
    back the prefix a key stands for. *)
Definition GetCIDR (k : WorldCIDRKey4) : IPNet :=
  mkIPNet (KeyIP (`k)) (PrefixLen (`k)).

(** Modelled from the spec: [WorldCIDRKey4.Matches] is missing; "matching
    is exact-value equality after normalization (masked address + prefix
    length), not subset/superset overlap". *)
Definition Matches (k : WorldCIDRKey4) (cidr : IPNet) : bool :=
  bool_decide (k = NewWorldCIDRKey4 cidr).

(** ** CIDR sets *)

(** [types.NamespacedName] *)
Record cidrSetID := mkID { Namespace : string; Name : string }.

Global Instance cidrSetID_eq_dec : EqDecision cidrSetID.
Proof. solve_decision. Defined.

Global Instance cidrSetID_countable : Countable cidrSetID.
Proof.
  refine (inj_countable' (λ i, (Namespace i, Name i))
                         (λ p, mkID p.1 p.2) _).
  by intros [].
Defined.

Record CIDRSet := mkCIDRSet { id : cidrSetID; cidrs : list IPNet }.

Global Instance CIDRSet_eq_dec : EqDecision CIDRSet.
Proof. solve_decision. Defined.

(** ** Observable effects *)

(** Go's [error] as returned by the table: nil ([errNil]), the absence of the key
    ([Delete] "fails if the prefix is not present"), or any other failure of
    the system call. *)
Inductive error := errNil | ENOENT | EIO.

Global Instance error_eq_dec : EqDecision error.
Proof. solve_decision. Defined.

Inductive logLevel := Info | Warn | Error.

Global Instance logLevel_eq_dec : EqDecision logLevel.
Proof. solve_decision. Defined.

(** The structured fields the manager attaches to a log record. *)
Inductive logField :=
| CiliumWorldCIDRSetName (name : string)
| CIDR (cidr : IPNet)
| WithError (err : error).

Global Instance logField_eq_dec : EqDecision logField.
Proof. solve_decision. Defined.

(** What a run of the manager does to its collaborators, in order: a
    question to the readiness oracle with its answer, a call to the table
    adapter with its result, a log record. *)
Inductive Effect :=
| EvSynced (answer : bool)
| EvIterate
| EvAdd (cidr : IPNet) (err : error)
| EvDelete (cidr : IPNet) (err : error)
| EvLog (lvl : logLevel) (fields : list logField) (msg : string).

Global Instance Effect_eq_dec : EqDecision Effect.
Proof. solve_decision. Defined.

(** ** Iteration order of Go maps *)

(** Go leaves the order of [range] over a map unspecified, and it may differ
    from one loop to the next.  A loop draws a seed and visits the entries
    in the order [shuffle seed] makes of them: the seed says at which
    position each entry is inserted. *)
Fixpoint shuffle {A} (seed : list nat) (l : list A) : list A :=
  match l with
  | [] => []
  | x :: l' =>
      let r := shuffle (tail seed) l' in
      take (hd 0%nat seed) r ++ x :: drop (hd 0%nat seed) r
  end.

(** ** The readiness oracle *)

(** The interface [k8sCacheSyncedChecker]: one method, which may answer
    differently from call to call. *)
Class k8sCacheSyncedChecker (O : Type) := K8sCacheIsSynced : O → bool * O.

(** An oracle that follows a script and answers [final] when it is over. *)
Record scripted := mkScripted { script : list bool; final : bool }.

Global Instance scripted_checker : k8sCacheSyncedChecker scripted := λ o,
  match script o with
  | [] => (final o, o)
  | b :: s => (b, mkScripted s (final o))
  end.

(** An oracle that reports synced from its [n]-th call on, as a cache that
    never loses its synchronisation does. *)
Record syncsAfter := mkSyncsAfter { remaining : nat }.

Global Instance syncsAfter_checker : k8sCacheSyncedChecker syncsAfter := λ o,
  match remaining o with
  | O => (true, o)
  | S n => (false, mkSyncsAfter n)
  end.

(** An oracle never goes back: once it answers synced it does so on the
    next call as well. *)
Class Latching (O : Type) `{!k8sCacheSyncedChecker O} : Prop :=
  latching : ∀ o : O,
    (K8sCacheIsSynced o).1 = true →
    (K8sCacheIsSynced (K8sCacheIsSynced o).2).1 = true.

(** ** The process state and the monad of the manager's code *)

Section manager.
Context {O : Type} `{!k8sCacheSyncedChecker O}.

(** The struct [Manager].  The embedded mutex is not a field here: every
    exported method holds it from entry to exit, so a method runs as one
    uninterrupted step. *)
Record Manager := mkManager {
  k8sChecker : O;
  cidrSets : gmap cidrSetID CIDRSet
}.

(** Where the goroutine spawned by [runReconciliationAfterK8sSync] stands:
    in its polling loop, out of the loop and about to take the lock, or
    finished. *)
Inductive gatePC := GatePolling | GateSynced | GateDone.

Global Instance gatePC_eq_dec : EqDecision gatePC.
Proof. solve_decision. Defined.

(** The process: the manager, the goroutine of the sync gate, the package
    variable [worldcidrsmap.WorldCIDRsMap] (the entries of the BPF map) and
    what the environment decides: which of the coming table updates fail
    ([faults], one flag per [Add] or [Delete], none left meaning no failure)
    and in which order the coming map iterations run ([seeds]). *)
Record World := mkWorld {
  manager : Manager;
  gate : gatePC;
  WorldCIDRsMap : gmap WorldCIDRKey4 WorldCIDRVal;
  faults : list bool;
  seeds : list (list nat)
}.

Definition setManager (m : Manager) (w : World) : World :=
  mkWorld m (gate w) (WorldCIDRsMap w) (faults w) (seeds w).
Definition setGate (g : gatePC) (w : World) : World :=
  mkWorld (manager w) g (WorldCIDRsMap w) (faults w) (seeds w).
Definition setEntries (t : gmap WorldCIDRKey4 WorldCIDRVal) (w : World) : World :=
  mkWorld (manager w) (gate w) t (faults w) (seeds w).
Definition setFaults (f : list bool) (w : World) : World :=
  mkWorld (manager w) (gate w) (WorldCIDRsMap w) f (seeds w).
Definition setSeeds (s : list (list nat)) (w : World) : World :=
  mkWorld (manager w) (gate w) (WorldCIDRsMap w) (faults w) s.

(** A computation returns a value, the next state and the effects it had,
    oldest first. *)
Definition M (A : Type) : Type := World → A * World * list Effect.

Definition result {A} (r : A * World * list Effect) : A := r.1.1.
Definition world {A} (r : A * World * list Effect) : World := r.1.2.
Definition effects {A} (r : A * World * list Effect) : list Effect := r.2.

Global Instance M_ret : MRet M := λ A x w, (x, w, []).
Global Instance M_bind : MBind M := λ A B f m w,
  let r := m w in
  let r' := f (result r) (world r) in
  (result r', world r', effects r ++ effects r').

Definition get : M World := λ w, (w, w, []).
Definition modify (f : World → World) : M unit := λ w, (tt, f w, []).
Definition emit (e : Effect) : M unit := λ w, (tt, w, [e]).

(** [for _, x := range l { body(x) }] over a slice. *)
Fixpoint forM_ {A} (body : A → M unit) (l : list A) : M unit :=
  match l with
  | [] => mret tt
  | x :: l' => body x ;; forM_ body l'
  end.

(** [range m] over a Go map [m]: the entries in the order of the next
    seed. *)
Definition goRange {K V} `{Countable K} (m : gmap K V) : M (list (K * V)) :=
  λ w, (shuffle (hd [] (seeds w)) (map_to_list m), setSeeds (tail (seeds w)) w, []).

(** Logging: [log.WithFields(fields).Info(msg)] and the like. *)
Definition logf (lvl : logLevel) (fields : list logField) (msg : string) : M unit :=
  emit (EvLog lvl fields msg).

(** The method [K8sCacheIsSynced] of the manager's checker. *)
Definition K8sCacheIsSynced_ : M bool := λ w,
  let '(b, o) := K8sCacheIsSynced (k8sChecker (manager w)) in
  (b, setManager (mkManager o (cidrSets (manager w))) w, [EvSynced b]).

(** ** The table adapter *)

(** Modelled from the spec: [WorldCIDRsMap.IterateWithCallback] is missing;
    "full scan, no partial/paged variant": the callback sees every entry
    once, in an order the table chooses. *)
Definition IterateWithCallback {S} (cb : WorldCIDRKey4 → WorldCIDRVal → S → S)
    (s : S) : M S :=
  emit EvIterate ;;
  w ← get;
  kvs ← goRange (WorldCIDRsMap w);
  mret (foldl (λ acc kv, cb kv.1 kv.2 acc) s kvs).

(** Whether the next table update fails. *)
Definition nextFault : M bool := λ w,
  (hd false (faults w), setFaults (tail (faults w)) w, []).

(** Modelled from the spec: [WorldCIDRsMap.Add] is missing; [Add(prefix)
    error] stores the entry under the key of the prefix, or fails and
    leaves the table as it is. *)
Definition Add (cidr : IPNet) : M error :=
  fail ← nextFault;
  if fail : bool then emit (EvAdd cidr EIO) ;; mret EIO
  else
    modify (λ w, setEntries (<[NewWorldCIDRKey4 cidr := 1]> (WorldCIDRsMap w)) w) ;;
    emit (EvAdd cidr errNil) ;; mret errNil.

(** Modelled from the spec: [WorldCIDRsMap.Delete] is missing; [Delete(prefix)
    error] "fails if the prefix is not present", removes the entry
    otherwise, or fails and leaves the table as it is. *)
Definition Delete (cidr : IPNet) : M error :=
  fail ← nextFault;
  w ← get;
  if fail : bool then emit (EvDelete cidr EIO) ;; mret EIO
  else if WorldCIDRsMap w !! NewWorldCIDRKey4 cidr is None
  then emit (EvDelete cidr ENOENT) ;; mret ENOENT
  else
    modify (setEntries (delete (NewWorldCIDRKey4 cidr) (WorldCIDRsMap w))) ;;
    emit (EvDelete cidr errNil) ;; mret errNil.

(** ** The manager *)

(** The closure [addCIDR] of [addMissingCIDRs]; [worldCIDRs] is the snapshot
    the enclosing function took. *)
Definition addCIDR (worldCIDRs : gmap WorldCIDRKey4 WorldCIDRVal)
    (cidr : IPNet) : M unit :=
  let worldCIDRKey := NewWorldCIDRKey4 cidr in
  if worldCIDRs !! worldCIDRKey is Some _ then mret tt
  else
    err ← Add cidr;
    if decide (err ≠ errNil)
    then logf Error [CIDR cidr; WithError err] "Error adding world CIDR"
    else logf Info [CIDR cidr] "World CIDR added".

Definition addMissingCIDRs : M unit :=
  worldCIDRs ← IterateWithCallback (λ key val worldCIDRs, <[key := val]> worldCIDRs) ∅;
  w ← get;
  sets ← goRange (cidrSets (manager w));
  forM_ (λ cidrSet, forM_ (addCIDR worldCIDRs) (cidrs cidrSet.2)) sets.

(** The two inner loops of [removeUnusedCIDRs]: whether they leave through
    [continue nextCIDR]. *)
Definition matchesAny (worldCIDR : WorldCIDRKey4) : M bool :=
  w ← get;
  sets ← goRange (cidrSets (manager w));
  mret (existsb (λ cidrSet, existsb (Matches worldCIDR) (cidrs cidrSet.2)) sets).

(** The body of the loop labelled [nextCIDR]. *)
Definition removeCIDR (worldCIDR : WorldCIDRKey4) : M unit :=
  found ← matchesAny worldCIDR;
  if found : bool then mret tt
  else
    err ← Delete (GetCIDR worldCIDR);
    if decide (err ≠ errNil)
    then logf Error [CIDR (GetCIDR worldCIDR); WithError err] "Error removing world CIDR"
    else logf Info [CIDR (GetCIDR worldCIDR)] "World CIDR removed".

Definition removeUnusedCIDRs : M unit :=
  worldCIDRs ← IterateWithCallback (λ key val worldCIDRs, <[key := val]> worldCIDRs) ∅;
  entries ← goRange worldCIDRs;
  forM_ (λ entry, removeCIDR entry.1) entries.

Definition reconcile : M unit :=
  synced ← K8sCacheIsSynced_;
  if negb synced then mret tt
  else addMissingCIDRs ;; removeUnusedCIDRs.

Definition OnAddWorldCIDRSet (cidrSet : CIDRSet) : M unit :=
  w ← get;
  (if cidrSets (manager w) !! id cidrSet is None
   then logf Info [CiliumWorldCIDRSetName (Name (id cidrSet))] "Added CiliumWorldCIDRSet"
   else logf Info [CiliumWorldCIDRSetName (Name (id cidrSet))] "Updated CiliumWorldCIDRSet") ;;
  modify (λ w, setManager (mkManager (k8sChecker (manager w))
                             (<[id cidrSet := cidrSet]> (cidrSets (manager w)))) w) ;;
  reconcile.

Definition OnDeleteWorldCIDRSet (i : cidrSetID) : M unit :=
  w ← get;
  if cidrSets (manager w) !! i is None
  then logf Warn [CiliumWorldCIDRSetName (Name i)]
         "Can't delete CiliumWorldCIDRSet: set not found"
  else
    modify (λ w, setManager (mkManager (k8sChecker (manager w))
                               (delete i (cidrSets (manager w)))) w) ;;
    logf Info [CiliumWorldCIDRSetName (Name i)] "Deleted CiliumWorldCIDRSet" ;;
    reconcile.

(** One step of the goroutine of [runReconciliationAfterK8sSync]: a turn of
    the polling loop, or the locked call of [reconcile] that ends it. *)
Definition gateStep : M unit :=
  w ← get;
  match gate w with
  | GatePolling =>
      synced ← K8sCacheIsSynced_;
      if synced : bool then modify (setGate GateSynced) else mret tt
  | GateSynced => reconcile ;; modify (setGate GateDone)
  | GateDone => mret tt
  end.

(** [NewWorldCIDRsManager]: an empty store, and the goroutine started.  The
    table and the environment are what they are at that time. *)
Definition NewWorldCIDRsManager (checker : O)
    (table : gmap WorldCIDRKey4 WorldCIDRVal) (fs : list bool)
    (ss : list (list nat)) : World :=
  mkWorld (mkManager checker ∅) GatePolling table fs ss.

(** What happens to the process: the two event handlers, called by the
    watcher, and the steps of the goroutine, in any interleaving. *)
Inductive Event :=
| AddOrUpdate (cidrSet : CIDRSet)
| DeleteSet (i : cidrSetID)
| GateStep.

Definition handle (e : Event) : M unit :=
  match e with
  | AddOrUpdate cidrSet => OnAddWorldCIDRSet cidrSet
  | DeleteSet i => OnDeleteWorldCIDRSet i
  | GateStep => gateStep
  end.

Definition run (es : list Event) : M unit := forM_ handle es.

End manager.

Global Arguments result {_ _} !_ /.
Global Arguments world {_ _} !_ /.
Global Arguments effects {_ _} !_ /.

(** ** Observations on runs *)

(** A table update that returned an error has not succeeded; everything
    else has. *)
Definition succeeded (e : Effect) : bool :=
  match e with
  | EvAdd _ err | EvDelete _ err => bool_decide (err = errNil)
  | _ => true
  end.

Definition isAdd (e : Effect) : bool :=
  match e with EvAdd _ _ => true | _ => false end.
Definition isDelete (e : Effect) : bool :=
  match e with EvDelete _ _ => true | _ => false end.
Definition isUpdate (e : Effect) : bool := isAdd e || isDelete e.
Definition isTableCall (e : Effect) : bool :=
  match e with EvIterate | EvAdd _ _ | EvDelete _ _ => true | _ => false end.

Definition isSynced (e : Effect) : bool :=
  match e with EvSynced _ => true | _ => false end.

(** Once the oracle has been seen to answer synced, it is never again seen
    to answer not-synced. *)
Fixpoint latched (tr : list Effect) : Prop :=
  match tr with
  | [] => True
  | EvSynced true :: tr' => EvSynced false ∉ tr'
  | _ :: tr' => latched tr'
  end.

(** The prefixes [Add] and [Delete] were called with, in order. *)
Definition addCalls (tr : list Effect) : list IPNet :=
  omap (λ e, if e is EvAdd cidr _ then Some cidr else None) tr.
Definition deleteCalls (tr : list Effect) : list IPNet :=
  omap (λ e, if e is EvDelete cidr _ then Some cidr else None) tr.

(** The log record [addCIDR] writes after [Add] returned [err], and the one
    [removeUnusedCIDRs] writes after [Delete] did. *)
Definition addLog (cidr : IPNet) (err : error) : Effect :=
  if decide (err ≠ errNil)
  then EvLog Error [CIDR cidr; WithError err] "Error adding world CIDR"
  else EvLog Info [CIDR cidr] "World CIDR added".
Definition deleteLog (cidr : IPNet) (err : error) : Effect :=
  if decide (err ≠ errNil)
  then EvLog Error [CIDR cidr; WithError err] "Error removing world CIDR"
  else EvLog Info [CIDR cidr] "World CIDR removed".

Definition addRecord (cidr : IPNet) (err : error) : list Effect :=
  [EvAdd cidr err; addLog cidr err].
Definition deleteRecord (k : WorldCIDRKey4) (err : error) : list Effect :=
  [EvDelete (GetCIDR k) err; deleteLog (GetCIDR k) err].

(** The error [Add] returns: the environment's next fault, if any. *)
Definition faultErr (fs : list bool) : error := if hd false fs then EIO else errNil.

(** The error [Delete] returns for the key [k] of the table [t]. *)
Definition deleteErr (fs : list bool) (t : gmap WorldCIDRKey4 WorldCIDRVal)
    (k : WorldCIDRKey4) : error :=
  if hd false fs then EIO else if t !! k is None then ENOENT else errNil.


(** All the prefixes of a sequence of CIDR sets. *)
Definition allCIDRs (sets : list (cidrSetID * CIDRSet)) : list IPNet :=
  sets ≫= λ cidrSet, cidrs cidrSet.2.

(** The desired state: the union of the normalized prefixes of all the CIDR
    sets of the store. *)
Definition desiredPrefixes (store : gmap cidrSetID CIDRSet) : gset WorldCIDRKey4 :=
  list_to_set (NewWorldCIDRKey4 <$> allCIDRs (map_to_list store)).

(** The desired-but-missing prefixes: those of [cidrs] whose key the table
    [t] does not hold, as often as they occur. *)
Definition missingCIDRs (t : gmap WorldCIDRKey4 WorldCIDRVal)
    (cidrs : list IPNet) : list IPNet :=
  filter (λ cidr, t !! NewWorldCIDRKey4 cidr = None) cidrs.

(** The stale keys: those of [keys] that no desired prefix has. *)
Definition staleKeys (desired : gset WorldCIDRKey4)
    (keys : list WorldCIDRKey4) : list WorldCIDRKey4 :=
  filter (λ k, k ∉ desired) keys.

(** What an event does to the store, whatever the readiness. *)
Definition storeAfter (store : gmap cidrSetID CIDRSet) (e : Event)
    : gmap cidrSetID CIDRSet :=
  match e with
  | AddOrUpdate cidrSet => <[id cidrSet := cidrSet]> store
  | DeleteSet i => delete i store
  | GateStep => store
  end.

(** A prefix contains another one: it is no longer, and both agree on its
    bits. *)
Definition covers (outer inner : IPNet) : Prop :=
  (0 ≤ Mask outer ≤ Mask inner)%Z ∧
  Z.land (IP inner) (CIDRMask (Mask outer)) = Z.land (IP outer) (CIDRMask (Mask outer)).

Definition isIterate (e : Effect) : bool :=
  match e with EvIterate => true | _ => false end.

Definition isGateStep (e : Event) : bool :=
  match e with GateStep => true | _ => false end.

(** Whether handling the event [e] in the state [w] reaches the call of
    [reconcile]: [OnAddWorldCIDRSet] always does, [OnDeleteWorldCIDRSet]
    when the store holds the identity, the goroutine of the sync gate when
    it is out of its polling loop. *)
Definition reconciles {O} (w : World (O:=O)) (e : Event) : bool :=
  match e with
  | AddOrUpdate _ => true
  | DeleteSet i => bool_decide (is_Some (cidrSets (manager w) !! i))
  | GateStep => bool_decide (gate w = GateSynced)
  end.

(** Every CIDR set of the store is filed under its own identity. *)
Definition keyedByIdentity (store : gmap cidrSetID CIDRSet) : Prop :=
  map_Forall (λ i cidrSet, id cidrSet = i) store.

(** ** Sample data *)

Definition ipv4 (a b c d : Z) : Z :=
  Z.lor (Z.shiftl a 24) (Z.lor (Z.shiftl b 16) (Z.lor (Z.shiftl c 8) d)).

Definition net10 : IPNet := mkIPNet (ipv4 10 0 0 0) 8.
Definition net10_1 : IPNet := mkIPNet (ipv4 10 1 0 0) 16.
Definition net172 : IPNet := mkIPNet (ipv4 172 16 0 0) 12.
Definition net192 : IPNet := mkIPNet (ipv4 192 168 0 0) 16.

Definition idA : cidrSetID := mkID "default" "A".
Definition idB : cidrSetID := mkID "default" "B".
Definition setA : CIDRSet := mkCIDRSet idA [net10].
Definition setB : CIDRSet := mkCIDRSet idB [net10; net192].
Definition oldA : CIDRSet := mkCIDRSet idA [net172].
Definition wideA : CIDRSet := mkCIDRSet idA [net10; net192; net10_1].

(** A table with the given prefixes, and a store with the given sets. *)
Definition tableOf (cidrs : list IPNet) : gmap WorldCIDRKey4 WorldCIDRVal :=
  list_to_map ((λ cidr, (NewWorldCIDRKey4 cidr, 1)) <$> cidrs).
Definition storeOf (sets : list CIDRSet) : gmap cidrSetID CIDRSet :=
  list_to_map ((λ cidrSet, (id cidrSet, cidrSet)) <$> sets).

(** A process after the sync gate has finished, with the given oracle,
    store, table and coming faults. *)
Definition processOf {O} (checker : O) (sets : list CIDRSet)
    (cidrs : list IPNet) (fs : list bool) : World :=
  mkWorld (mkManager checker (storeOf sets)) GateDone (tableOf cidrs) fs [].

Definition alwaysSynced : scripted := mkScripted [] true.
Definition neverSynced : scripted := mkScripted [] false.

(** * Properties *)

(** Goals of the algebra of sets, by membership. *)
Ltac set_tauto :=
  clear;
  first [ apply set_eq; intros ?; set_unfold; tauto
        | intros ?; set_unfold; tauto ].

(** ** Keys *)

Lemma NewWorldCIDRKey4_GetCIDR (k : WorldCIDRKey4) :
  NewWorldCIDRKey4 (GetCIDR k) = k.
Proof.
  apply dsig_eq. destruct k as [[len ip] Hk]. simpl.
  apply bool_decide_unpack in Hk. unfold masked in Hk. simpl in Hk.
  by rewrite <-Hk.
Qed.

Global Instance GetCIDR_inj : Inj (=) (=) GetCIDR.
Proof.
  intros k1 k2 Hk.
  by rewrite <-(NewWorldCIDRKey4_GetCIDR k1), Hk, NewWorldCIDRKey4_GetCIDR.
Qed.

Lemma Matches_spec k cidr : Matches k cidr = true ↔ k = NewWorldCIDRKey4 cidr.
Proof. unfold Matches. apply bool_decide_eq_true. Qed.

(** ** Iteration orders *)

Lemma shuffle_Permutation {A} (seed : list nat) (l : list A) :
  shuffle seed l ≡ₚ l.
Proof.
  revert seed. induction l as [|x l IH]; intros seed; simpl; [done|].
  rewrite <-Permutation_middle, take_drop. by rewrite IH.
Qed.

(** Every order is the order of some seed. *)
Lemma shuffle_complete {A} (l l' : list A) :
  l' ≡ₚ l → ∃ seed, shuffle seed l = l'.
Proof.
  revert l'. induction l as [|x l IH]; intros l' Hp.
  - apply Permutation_nil_r in Hp as ->. by exists [].
  - assert (x ∈ l') as Hx by (rewrite Hp; left).
    apply list_elem_of_split in Hx as (l1 & l2 & ->).
    symmetry in Hp. apply Permutation_cons_app_inv in Hp. symmetry in Hp.
    destruct (IH _ Hp) as [seed Hseed].
    exists (length l1 :: seed). simpl. rewrite Hseed.
    by rewrite take_app_length, drop_app_length.
Qed.

Lemma foldl_insert_list_to_map `{Countable K} {V} (l : list (K * V)) :
  foldl (λ acc kv, <[kv.1 := kv.2]> acc) (∅ : gmap K V) l = list_to_map (reverse l).
Proof.
  induction l as [|x l IH] using rev_ind; [done|].
  by rewrite foldl_snoc, reverse_snoc, IH.
Qed.

(** Copying a map entry by entry yields the map, in whatever order the
    entries come. *)
Lemma foldl_insert_snapshot `{Countable K} {V} (m : gmap K V) (l : list (K * V)) :
  l ≡ₚ map_to_list m →
  foldl (λ acc kv, <[kv.1 := kv.2]> acc) ∅ l = m.
Proof.
  intros Hp. rewrite foldl_insert_list_to_map.
  rewrite <-(list_to_map_to_list m).
  apply list_to_map_proper.
  - rewrite reverse_Permutation, Hp. apply NoDup_fst_map_to_list.
  - by rewrite reverse_Permutation.
Qed.

(** ** The desired state *)

Lemma elem_of_allCIDRs sets cidr :
  cidr ∈ allCIDRs sets ↔ ∃ s, s ∈ sets ∧ cidr ∈ cidrs s.2.
Proof.
  unfold allCIDRs. rewrite list_elem_of_bind.
  split; intros (s & ? & ?); by exists s.
Qed.

Lemma elem_of_desiredPrefixes store k :
  k ∈ desiredPrefixes store ↔
  ∃ i cidrSet cidr, store !! i = Some cidrSet ∧ cidr ∈ cidrs cidrSet ∧
                    k = NewWorldCIDRKey4 cidr.
Proof.
  unfold desiredPrefixes.
  rewrite elem_of_list_to_set, list_elem_of_fmap. split.
  - intros (cidr & -> & Hc). apply elem_of_allCIDRs in Hc as ([i s] & Hs & Hc).
    apply elem_of_map_to_list in Hs. by exists i, s, cidr.
  - intros (i & s & cidr & Hs & Hc & ->). exists cidr. split; [done|].
    apply elem_of_allCIDRs. exists (i, s). by rewrite elem_of_map_to_list.
Qed.

Lemma desiredPrefixes_Permutation sets store :
  sets ≡ₚ map_to_list store →
  list_to_set (NewWorldCIDRKey4 <$> allCIDRs sets) = desiredPrefixes store.
Proof.
  intros Hp. apply set_eq. intros k. unfold desiredPrefixes.
  rewrite !elem_of_list_to_set, !list_elem_of_fmap.
  setoid_rewrite elem_of_allCIDRs. by setoid_rewrite Hp.
Qed.

Lemma desiredPrefixes_shuffle seed store :
  list_to_set (NewWorldCIDRKey4 <$> allCIDRs (shuffle seed (map_to_list store)))
  = desiredPrefixes store.
Proof. apply desiredPrefixes_Permutation, shuffle_Permutation. Qed.

Lemma elem_of_missingCIDRs t cidrs cidr :
  cidr ∈ missingCIDRs t cidrs ↔ (NewWorldCIDRKey4 cidr ∉ dom t) ∧ cidr ∈ cidrs.
Proof. unfold missingCIDRs. by rewrite list_elem_of_filter, not_elem_of_dom. Qed.

Lemma elem_of_staleKeys desired keys k :
  k ∈ staleKeys desired keys ↔ (k ∉ desired) ∧ k ∈ keys.
Proof. unfold staleKeys. by rewrite list_elem_of_filter. Qed.

(** With the prefixes the table has, the missing ones make up all of
    them. *)
Lemma dom_union_missingCIDRs t cidrs :
  dom t ∪ list_to_set (NewWorldCIDRKey4 <$> missingCIDRs t cidrs)
  = dom t ∪ list_to_set (NewWorldCIDRKey4 <$> cidrs).
Proof.
  apply set_eq. intros k.
  rewrite !elem_of_union, !elem_of_list_to_set, !list_elem_of_fmap.
  setoid_rewrite elem_of_missingCIDRs. split.
  - intros [?|(c & -> & _ & ?)]; [by left|right; by exists c].
  - intros [?|(c & -> & ?)]; [by left|].
    destruct (decide (NewWorldCIDRKey4 c ∈ dom t)); [by left|right; by exists c].
Qed.

Lemma elem_of_map_to_list_fst (t : gmap WorldCIDRKey4 WorldCIDRVal) k :
  k ∈ (map_to_list t).*1 ↔ k ∈ dom t.
Proof.
  rewrite elem_of_dom, list_elem_of_fmap. split.
  - intros ([k' v] & -> & Hkv). apply elem_of_map_to_list in Hkv. by exists v.
  - intros [v Hv]. exists (k, v). by rewrite elem_of_map_to_list.
Qed.

(** Without its stale keys, a table keeps what is desired. *)
Lemma dom_difference_staleKeys (t : gmap WorldCIDRKey4 WorldCIDRVal) desired keys :
  keys ≡ₚ (map_to_list t).*1 →
  dom t ∖ list_to_set (staleKeys desired keys) = dom t ∩ desired.
Proof.
  intros Hp. apply set_eq. intros k.
  rewrite elem_of_difference, elem_of_intersection, elem_of_list_to_set,
    elem_of_staleKeys, Hp.
  pose proof (elem_of_map_to_list_fst t k).
  destruct (decide (k ∈ desired)); tauto.
Qed.

Lemma desiredPrefixes_insert store cidrSet :
  desiredPrefixes (<[id cidrSet := cidrSet]> store) =
  list_to_set (NewWorldCIDRKey4 <$> cidrs cidrSet)
    ∪ desiredPrefixes (delete (id cidrSet) store).
Proof.
  apply set_eq. intros k.
  rewrite elem_of_union, !elem_of_desiredPrefixes, elem_of_list_to_set,
    list_elem_of_fmap. split.
  - intros (i & s & cidr & Hs & Hc & ->).
    destruct (decide (i = id cidrSet)) as [->|Hne].
    + rewrite lookup_insert_eq in Hs. injection Hs as <-. left. eauto.
    + rewrite lookup_insert_ne in Hs by done. right.
      exists i, s, cidr. by rewrite lookup_delete_ne.
  - intros [(cidr & -> & Hc)|(i & s & cidr & Hs & Hc & ->)].
    + exists (id cidrSet), cidrSet, cidr. by rewrite lookup_insert_eq.
    + apply lookup_delete_Some in Hs as [Hne Hs].
      exists i, s, cidr. by rewrite lookup_insert_ne.
Qed.

(** ** Runs of the manager's code *)

Section runs.
Context {O : Type} `{!k8sCacheSyncedChecker O}.
Implicit Types (w : World (O:=O)) (tr : list Effect).

Lemma unit_run (r : unit * World (O:=O) * list Effect) :
  r = (tt, world r, effects r).
Proof. by destruct r as [[[] ?] ?]. Qed.

Lemma bind_run {A B} (m : M A) (f : A → M B) w :
  (m ≫= f) w =
  (result (f (result (m w)) (world (m w))),
   world (f (result (m w)) (world (m w))),
   effects (m w) ++ effects (f (result (m w)) (world (m w)))).
Proof. reflexivity. Qed.

Lemma forM__cons {A} (body : A → M unit) x l w :
  forM_ body (x :: l) w =
  (tt, world (forM_ body l (world (body x w))),
   effects (body x w) ++ effects (forM_ body l (world (body x w)))).
Proof. rewrite (unit_run (forM_ body (x :: l) w)). reflexivity. Qed.

Lemma forM__app {A} (body : A → M unit) l1 l2 w :
  forM_ body (l1 ++ l2) w =
  (tt, world (forM_ body l2 (world (forM_ body l1 w))),
   effects (forM_ body l1 w) ++ effects (forM_ body l2 (world (forM_ body l1 w)))).
Proof.
  revert w. induction l1 as [|x l1 IH]; intros w.
  - simpl. apply unit_run.
  - rewrite <-app_comm_cons, !forM__cons, IH. simpl. by rewrite app_assoc.
Qed.

(** A loop over the sets with a loop over the prefixes of each inside is a
    loop over all the prefixes. *)
Lemma forM__allCIDRs (body : IPNet → M unit) sets w :
  forM_ (λ cidrSet, forM_ body (cidrs cidrSet.2)) sets w =
  forM_ body (allCIDRs sets) w.
Proof.
  revert w. induction sets as [|s sets IH]; intros w; [done|].
  unfold allCIDRs. rewrite bind_cons, forM__cons, forM__app.
  by rewrite IH.
Qed.

(** No order is left out: whatever order Go picks for a [range] over a map,
    there is a seed under which [goRange] visits the entries in that
    order. *)
Lemma goRange_any_order `{Countable K} {V} (m : gmap K V) (l : list (K * V)) w :
  l ≡ₚ map_to_list m →
  ∃ seed, result (goRange m (setSeeds (seed :: seeds w) w)) = l.
Proof.
  intros Hp. destruct (shuffle_complete _ _ Hp) as [seed Hseed].
  by exists seed.
Qed.

(** *** The table adapter and the snapshot *)

Lemma snapshot_run w :
  IterateWithCallback (λ key val worldCIDRs, <[key := val]> worldCIDRs) ∅ w =
  (WorldCIDRsMap w, setSeeds (tail (seeds w)) w, [EvIterate]).
Proof.
  change (IterateWithCallback (λ key val worldCIDRs, <[key := val]> worldCIDRs) ∅ w)
    with (foldl (λ acc kv, <[kv.1 := kv.2]> acc) (∅ : gmap WorldCIDRKey4 WorldCIDRVal)
            (shuffle (hd [] (seeds w)) (map_to_list (WorldCIDRsMap w))),
          setSeeds (tail (seeds w)) w, [EvIterate]).
  by rewrite (foldl_insert_snapshot (WorldCIDRsMap w)) by apply shuffle_Permutation.
Qed.

Lemma addCIDR_present snap cidr w :
  snap !! NewWorldCIDRKey4 cidr ≠ None → addCIDR snap cidr w = (tt, w, []).
Proof. intros Hv. unfold addCIDR. by destruct (snap !! _). Qed.

Lemma addCIDR_missing snap cidr w :
  snap !! NewWorldCIDRKey4 cidr = None →
  addCIDR snap cidr w =
    (tt,
     setEntries (if hd false (faults w) then WorldCIDRsMap w
                 else <[NewWorldCIDRKey4 cidr := 1%Z]> (WorldCIDRsMap w))
                (setFaults (tail (faults w)) w),
     addRecord cidr (faultErr (faults w))).
Proof.
  intros Hv. unfold addCIDR. rewrite Hv.
  by destruct w as [m g t [|[] fs] ss].
Qed.

Lemma matchesAny_run k w :
  matchesAny k w =
  (bool_decide (k ∈ desiredPrefixes (cidrSets (manager w))),
   setSeeds (tail (seeds w)) w, []).
Proof.
  change (matchesAny k w) with
    (existsb (λ cidrSet : cidrSetID * CIDRSet, existsb (Matches k) (cidrs cidrSet.2))
       (shuffle (hd [] (seeds w)) (map_to_list (cidrSets (manager w)))),
     setSeeds (tail (seeds w)) w, @nil Effect).
  do 2 f_equal.
  rewrite <-(desiredPrefixes_shuffle (hd [] (seeds w))).
  generalize (shuffle (hd [] (seeds w)) (map_to_list (cidrSets (manager w)))).
  intros sets. apply eq_true_iff_eq.
  rewrite existsb_exists, bool_decide_eq_true, elem_of_list_to_set,
    list_elem_of_fmap.
  setoid_rewrite elem_of_allCIDRs. setoid_rewrite existsb_exists.
  setoid_rewrite Matches_spec. setoid_rewrite <-list_elem_of_In.
  split.
  - intros (s & Hs & c & Hc & ->). exists c. split; [done|]. by exists s.
  - intros (c & -> & s & Hs & Hc). exists s. split; [done|]. by exists c.
Qed.

Lemma removeCIDR_backed k w :
  k ∈ desiredPrefixes (cidrSets (manager w)) →
  removeCIDR k w = (tt, setSeeds (tail (seeds w)) w, []).
Proof.
  intros Hk. unfold removeCIDR.
  rewrite bind_run, matchesAny_run. simpl.
  rewrite bool_decide_true by done. reflexivity.
Qed.

Lemma removeCIDR_stale k w :
  k ∉ desiredPrefixes (cidrSets (manager w)) →
  removeCIDR k w =
    (tt,
     setEntries (if decide (deleteErr (faults w) (WorldCIDRsMap w) k = errNil)
                 then delete k (WorldCIDRsMap w) else WorldCIDRsMap w)
                (setFaults (tail (faults w)) (setSeeds (tail (seeds w)) w)),
     deleteRecord k (deleteErr (faults w) (WorldCIDRsMap w) k)).
Proof.
  intros Hk. unfold removeCIDR.
  rewrite bind_run, matchesAny_run. simpl.
  rewrite bool_decide_false by done.
  unfold Delete, deleteRecord, deleteErr. rewrite NewWorldCIDRKey4_GetCIDR.
  destruct w as [m g t [|[] fs] ss]; simpl;
    cbv [mbind M_bind nextFault get result world effects fst snd faults hd];
    simpl; destruct (t !! k); reflexivity.
Qed.

(** *** The two loops *)

Lemma forM__fmap {A B} (g : A → B) (body : B → M unit) l w :
  forM_ (λ x, body (g x)) l w = forM_ body (g <$> l) w.
Proof.
  revert w. induction l as [|x l IH]; intros w; [done|].
  by rewrite fmap_cons, !forM__cons, IH.
Qed.

Lemma succeeded_addRecords cidrs errs :
  length errs = length cidrs →
  Forall succeeded (mjoin (zip_with addRecord cidrs errs)) →
  Forall (λ err, err = errNil) errs.
Proof.
  revert errs. induction cidrs as [|c cidrs IH]; intros [|err errs] Hlen Hok;
    simplify_eq/=; constructor.
  - apply Forall_cons in Hok as [Hc _]. by apply bool_decide_unpack in Hc.
  - apply IH; [done|]. by apply Forall_cons in Hok as [_ [_ ?]%Forall_cons].
Qed.

Lemma succeeded_deleteRecords keys errs :
  length errs = length keys →
  Forall succeeded (mjoin (zip_with deleteRecord keys errs)) →
  Forall (λ err, err = errNil) errs.
Proof.
  revert errs. induction keys as [|k keys IH]; intros [|err errs] Hlen Hok;
    simplify_eq/=; constructor.
  - apply Forall_cons in Hok as [Hc _]. by apply bool_decide_unpack in Hc.
  - apply IH; [done|]. by apply Forall_cons in Hok as [_ [_ ?]%Forall_cons].
Qed.

(** The loop of [addMissingCIDRs] over the prefixes [cidrs], with the
    snapshot [snap]: one [Add] and its log record for each missing prefix,
    whatever the earlier calls returned. *)
Lemma addLoop_spec snap cidrs w :
  ∃ errs,
    length errs = length (missingCIDRs snap cidrs) ∧
    effects (forM_ (addCIDR snap) cidrs w)
      = mjoin (zip_with addRecord (missingCIDRs snap cidrs) errs) ∧
    manager (world (forM_ (addCIDR snap) cidrs w)) = manager w ∧
    gate (world (forM_ (addCIDR snap) cidrs w)) = gate w ∧
    dom (WorldCIDRsMap w) ⊆ dom (WorldCIDRsMap (world (forM_ (addCIDR snap) cidrs w))) ∧
    dom (WorldCIDRsMap (world (forM_ (addCIDR snap) cidrs w)))
      ⊆ dom (WorldCIDRsMap w)
        ∪ list_to_set (NewWorldCIDRKey4 <$> missingCIDRs snap cidrs) ∧
    (Forall (λ err, err = errNil) errs →
     dom (WorldCIDRsMap (world (forM_ (addCIDR snap) cidrs w)))
       = dom (WorldCIDRsMap w)
         ∪ list_to_set (NewWorldCIDRKey4 <$> missingCIDRs snap cidrs)).
Proof.
  revert w. induction cidrs as [|c cidrs IH]; intros w.
  - exists []. unfold missingCIDRs. simpl.
    rewrite (union_empty_r_L (dom (WorldCIDRsMap w))).
    by repeat split.
  - rewrite forM__cons. unfold missingCIDRs in *.
    destruct (decide (snap !! NewWorldCIDRKey4 c = None)) as [Hc|Hc].
    + rewrite filter_cons_True, addCIDR_missing by done. simpl.
      set (w1 := setEntries _ _).
      destruct (IH w1) as (errs & Hlen & -> & -> & -> & Hlow & Hupp & Hall).
      exists (faultErr (faults w) :: errs). simpl. rewrite Hlen.
      repeat split; try done.
      * etrans; [|exact Hlow]. subst w1. simpl.
        destruct (hd false (faults w)); [done|]. rewrite dom_insert_L. set_tauto.
      * etrans; [exact Hupp|]. subst w1. simpl.
        destruct (hd false (faults w)); [|rewrite dom_insert_L]; set_tauto.
      * intros [Herr Herrs]%Forall_cons. rewrite (Hall Herrs). subst w1. simpl.
        unfold faultErr in Herr. destruct (hd false (faults w)); [done|].
        rewrite dom_insert_L. set_tauto.
    + rewrite filter_cons_False, addCIDR_present by done. simpl. apply IH.
Qed.

(** The loop of [removeUnusedCIDRs] over the keys of its snapshot: one
    [Delete] and its log record for each stale key. *)
Lemma removeLoop_spec desired keys w :
  desired = desiredPrefixes (cidrSets (manager w)) →
  ∃ errs,
    length errs = length (staleKeys desired keys) ∧
    effects (forM_ removeCIDR keys w)
      = mjoin (zip_with deleteRecord (staleKeys desired keys) errs) ∧
    manager (world (forM_ removeCIDR keys w)) = manager w ∧
    gate (world (forM_ removeCIDR keys w)) = gate w ∧
    dom (WorldCIDRsMap (world (forM_ removeCIDR keys w))) ⊆ dom (WorldCIDRsMap w) ∧
    dom (WorldCIDRsMap w) ∖ list_to_set (staleKeys desired keys)
      ⊆ dom (WorldCIDRsMap (world (forM_ removeCIDR keys w))) ∧
    (Forall (λ err, err = errNil) errs →
     dom (WorldCIDRsMap (world (forM_ removeCIDR keys w)))
       = dom (WorldCIDRsMap w) ∖ list_to_set (staleKeys desired keys)).
Proof.
  revert w. induction keys as [|k keys IH]; intros w Hd.
  - exists []. unfold staleKeys. simpl.
    rewrite (difference_empty_L (dom (WorldCIDRsMap w))).
    by repeat split.
  - rewrite forM__cons. unfold staleKeys in *.
    destruct (decide (k ∈ desired)) as [Hk|Hk].
    + rewrite filter_cons_False by (by intros ?).
      rewrite removeCIDR_backed by (by rewrite <-Hd). simpl.
      apply (IH (setSeeds (tail (seeds w)) w)). by rewrite Hd.
    + rewrite filter_cons_True by done.
      rewrite removeCIDR_stale by (by rewrite <-Hd). simpl.
      set (w1 := setEntries _ _).
      destruct (IH w1) as (errs & Hlen & -> & -> & -> & Hupp & Hlow & Hall);
        [by rewrite Hd|].
      exists (deleteErr (faults w) (WorldCIDRsMap w) k :: errs). simpl.
      rewrite Hlen. repeat split; try done.
      * etrans; [exact Hupp|]. subst w1. simpl.
        case_decide; [rewrite dom_delete_L|]; set_tauto.
      * etrans; [|exact Hlow]. subst w1. simpl.
        case_decide; [rewrite dom_delete_L|]; set_tauto.
      * intros [Herr Herrs]%Forall_cons. rewrite (Hall Herrs). subst w1. simpl.
        rewrite decide_True by done. rewrite dom_delete_L. set_tauto.
Qed.

(** *** The two phases and the pass *)

Lemma addMissingCIDRs_run w :
  addMissingCIDRs w =
  (tt,
   world (forM_ (addCIDR (WorldCIDRsMap w))
            (allCIDRs (shuffle (hd [] (tail (seeds w)))
                         (map_to_list (cidrSets (manager w)))))
            (setSeeds (tail (tail (seeds w))) w)),
   EvIterate ::
   effects (forM_ (addCIDR (WorldCIDRsMap w))
              (allCIDRs (shuffle (hd [] (tail (seeds w)))
                           (map_to_list (cidrSets (manager w)))))
              (setSeeds (tail (tail (seeds w))) w))).
Proof.
  unfold addMissingCIDRs. rewrite bind_run, snapshot_run. simpl.
  rewrite <-forM__allCIDRs. by destruct (result _).
Qed.

Lemma removeUnusedCIDRs_run w :
  removeUnusedCIDRs w =
  (tt,
   world (forM_ removeCIDR
            (shuffle (hd [] (tail (seeds w))) (map_to_list (WorldCIDRsMap w))).*1
            (setSeeds (tail (tail (seeds w))) w)),
   EvIterate ::
   effects (forM_ removeCIDR
              (shuffle (hd [] (tail (seeds w))) (map_to_list (WorldCIDRsMap w))).*1
              (setSeeds (tail (tail (seeds w))) w))).
Proof.
  unfold removeUnusedCIDRs. rewrite bind_run, snapshot_run. simpl.
  rewrite <-(forM__fmap fst removeCIDR). by destruct (result _).
Qed.

(** Phase 1.  The sets are visited in some order; every missing prefix gets
    one [Add], followed by its log record, and nothing else happens. *)
Lemma addMissingCIDRs_spec w :
  ∃ sets errs,
    sets ≡ₚ map_to_list (cidrSets (manager w)) ∧
    length errs = length (missingCIDRs (WorldCIDRsMap w) (allCIDRs sets)) ∧
    effects (addMissingCIDRs w)
      = EvIterate ::
        mjoin (zip_with addRecord (missingCIDRs (WorldCIDRsMap w) (allCIDRs sets)) errs) ∧
    manager (world (addMissingCIDRs w)) = manager w ∧
    gate (world (addMissingCIDRs w)) = gate w ∧
    dom (WorldCIDRsMap w) ⊆ dom (WorldCIDRsMap (world (addMissingCIDRs w))) ∧
    dom (WorldCIDRsMap (world (addMissingCIDRs w)))
      ⊆ dom (WorldCIDRsMap w) ∪ desiredPrefixes (cidrSets (manager w)) ∧
    (Forall succeeded (effects (addMissingCIDRs w)) →
     dom (WorldCIDRsMap (world (addMissingCIDRs w)))
       = dom (WorldCIDRsMap w) ∪ desiredPrefixes (cidrSets (manager w))).
Proof.
  rewrite addMissingCIDRs_run. simpl.
  set (sets := shuffle _ _). set (w2 := setSeeds _ _).
  assert (sets ≡ₚ map_to_list (cidrSets (manager w))) as Hp
    by apply shuffle_Permutation.
  destruct (addLoop_spec (WorldCIDRsMap w) (allCIDRs sets) w2)
    as (errs & Hlen & Heff & Hm & Hg & Hlow & Hupp & Hall).
  exists sets, errs. rewrite Heff, Hm, Hg.
  change (WorldCIDRsMap w2) with (WorldCIDRsMap w) in *.
  rewrite dom_union_missingCIDRs, (desiredPrefixes_Permutation _ _ Hp) in Hupp, Hall.
  repeat split; try done.
  intros [_ Hok]%Forall_cons. eauto using succeeded_addRecords.
Qed.

(** Phase 2.  The entries of the table are visited in some order; every
    stale one gets one [Delete], followed by its log record, and nothing
    else happens. *)
Lemma removeUnusedCIDRs_spec w :
  ∃ keys errs,
    keys ≡ₚ (map_to_list (WorldCIDRsMap w)).*1 ∧
    length errs
      = length (staleKeys (desiredPrefixes (cidrSets (manager w))) keys) ∧
    effects (removeUnusedCIDRs w)
      = EvIterate ::
        mjoin (zip_with deleteRecord
                 (staleKeys (desiredPrefixes (cidrSets (manager w))) keys) errs) ∧
    manager (world (removeUnusedCIDRs w)) = manager w ∧
    gate (world (removeUnusedCIDRs w)) = gate w ∧
    dom (WorldCIDRsMap (world (removeUnusedCIDRs w))) ⊆ dom (WorldCIDRsMap w) ∧
    dom (WorldCIDRsMap w) ∩ desiredPrefixes (cidrSets (manager w))
      ⊆ dom (WorldCIDRsMap (world (removeUnusedCIDRs w))) ∧
    (Forall succeeded (effects (removeUnusedCIDRs w)) →
     dom (WorldCIDRsMap (world (removeUnusedCIDRs w)))
       = dom (WorldCIDRsMap w) ∩ desiredPrefixes (cidrSets (manager w))).
Proof.
  rewrite removeUnusedCIDRs_run. simpl.
  set (keys := (shuffle _ _).*1). set (w2 := setSeeds _ _).
  assert (keys ≡ₚ (map_to_list (WorldCIDRsMap w)).*1) as Hp
    by (unfold keys; by rewrite shuffle_Permutation).
  destruct (removeLoop_spec (desiredPrefixes (cidrSets (manager w))) keys w2 eq_refl)
    as (errs & Hlen & Heff & Hm & Hg & Hupp & Hlow & Hall).
  exists keys, errs. rewrite Heff, Hm, Hg.
  change (WorldCIDRsMap w2) with (WorldCIDRsMap w) in *.
  rewrite (dom_difference_staleKeys _ _ _ Hp) in Hlow, Hall.
  repeat split; try done.
  intros [_ Hok]%Forall_cons. eauto using succeeded_deleteRecords.
Qed.

Lemma K8sCacheIsSynced__answer w :
  result (K8sCacheIsSynced_ w) = (K8sCacheIsSynced (k8sChecker (manager w))).1 ∧
  effects (K8sCacheIsSynced_ w)
    = [EvSynced (K8sCacheIsSynced (k8sChecker (manager w))).1].
Proof.
  unfold K8sCacheIsSynced_. by destruct (K8sCacheIsSynced _) as [b o].
Qed.

(** [reconcile], by the answer of the readiness oracle. *)
Lemma reconcile_run w :
  reconcile w =
  if (K8sCacheIsSynced (k8sChecker (manager w))).1
  then
    (tt,
     world (removeUnusedCIDRs (world (addMissingCIDRs (world (K8sCacheIsSynced_ w))))),
     EvSynced true ::
       (effects (addMissingCIDRs (world (K8sCacheIsSynced_ w))) ++
        effects (removeUnusedCIDRs (world (addMissingCIDRs (world (K8sCacheIsSynced_ w)))))))
  else (tt, world (K8sCacheIsSynced_ w), [EvSynced false]).
Proof.
  rewrite (unit_run (reconcile w)). unfold reconcile. rewrite bind_run.
  cbn [world effects fst snd].
  destruct (K8sCacheIsSynced__answer w) as [-> ->].
  by destruct (K8sCacheIsSynced (k8sChecker (manager w))).1.
Qed.

Lemma K8sCacheIsSynced__frame w :
  cidrSets (manager (world (K8sCacheIsSynced_ w))) = cidrSets (manager w) ∧
  gate (world (K8sCacheIsSynced_ w)) = gate w ∧
  WorldCIDRsMap (world (K8sCacheIsSynced_ w)) = WorldCIDRsMap w.
Proof.
  unfold K8sCacheIsSynced_. by destruct (K8sCacheIsSynced _) as [b o].
Qed.

(** *** The event handlers *)

Lemma OnAddWorldCIDRSet_run cidrSet w :
  OnAddWorldCIDRSet cidrSet w =
  (tt,
   world (reconcile (setManager (mkManager (k8sChecker (manager w))
            (<[id cidrSet := cidrSet]> (cidrSets (manager w)))) w)),
   EvLog Info [CiliumWorldCIDRSetName (Name (id cidrSet))]
     (if cidrSets (manager w) !! id cidrSet is None
      then "Added CiliumWorldCIDRSet" else "Updated CiliumWorldCIDRSet") ::
   effects (reconcile (setManager (mkManager (k8sChecker (manager w))
              (<[id cidrSet := cidrSet]> (cidrSets (manager w)))) w))).
Proof.
  rewrite (unit_run (OnAddWorldCIDRSet cidrSet w)).
  unfold OnAddWorldCIDRSet. rewrite bind_run. cbn [world effects result get fst snd].
  by destruct (cidrSets (manager w) !! id cidrSet).
Qed.

Lemma OnDeleteWorldCIDRSet_known i cidrSet w :
  cidrSets (manager w) !! i = Some cidrSet →
  OnDeleteWorldCIDRSet i w =
  (tt,
   world (reconcile (setManager (mkManager (k8sChecker (manager w))
            (delete i (cidrSets (manager w)))) w)),
   EvLog Info [CiliumWorldCIDRSetName (Name i)] "Deleted CiliumWorldCIDRSet" ::
   effects (reconcile (setManager (mkManager (k8sChecker (manager w))
              (delete i (cidrSets (manager w)))) w))).
Proof.
  intros Hi. rewrite (unit_run (OnDeleteWorldCIDRSet i w)).
  unfold OnDeleteWorldCIDRSet. rewrite bind_run. cbn [world effects result get fst snd].
  by rewrite Hi.
Qed.

Lemma OnDeleteWorldCIDRSet_unknown i w :
  cidrSets (manager w) !! i = None →
  OnDeleteWorldCIDRSet i w =
  (tt, w, [EvLog Warn [CiliumWorldCIDRSetName (Name i)]
             "Can't delete CiliumWorldCIDRSet: set not found"]).
Proof.
  intros Hi. unfold OnDeleteWorldCIDRSet. rewrite bind_run.
  cbn [world effects result get fst snd]. by rewrite Hi.
Qed.

Lemma gateStep_run w :
  gateStep w =
  match gate w with
  | GatePolling =>
      (tt,
       (if (K8sCacheIsSynced (k8sChecker (manager w))).1
        then setGate GateSynced else λ w', w') (world (K8sCacheIsSynced_ w)),
       [EvSynced (K8sCacheIsSynced (k8sChecker (manager w))).1])
  | GateSynced =>
      (tt, setGate GateDone (world (reconcile w)), effects (reconcile w))
  | GateDone => (tt, w, [])
  end.
Proof.
  rewrite (unit_run (gateStep w)). unfold gateStep. rewrite bind_run.
  cbn [world effects result get fst snd]. destruct (gate w).
  - rewrite bind_run. destruct (K8sCacheIsSynced__answer w) as [-> ->].
    by destruct (K8sCacheIsSynced (k8sChecker (manager w))).1.
  - rewrite bind_run. cbn [world effects result modify fst snd].
    by rewrite app_nil_r.
  - done.
Qed.

(** *** A pass leaves the manager's store alone *)

Lemma reconcile_frame w :
  cidrSets (manager (world (reconcile w))) = cidrSets (manager w) ∧
  gate (world (reconcile w)) = gate w.
Proof.
  rewrite reconcile_run.
  destruct (K8sCacheIsSynced__frame w) as (Hs & Hg & _).
  destruct (K8sCacheIsSynced (k8sChecker (manager w))).1;
    cbn [world fst snd]; [|done].
  destruct (addMissingCIDRs_spec (world (K8sCacheIsSynced_ w)))
    as (? & ? & _ & _ & _ & Hm1 & Hg1 & _).
  destruct (removeUnusedCIDRs_spec (world (addMissingCIDRs (world (K8sCacheIsSynced_ w)))))
    as (? & ? & _ & _ & _ & Hm2 & Hg2 & _).
  by rewrite Hm2, Hm1, Hg2, Hg1.
Qed.

(** *** Convergence and idempotence *)

(** C10 — A reconciliation pass only reads the store: after [reconcile], and
    after each of its two phases, the mapping [cidrSets] is what it was, for
    every store, every table and every pattern of table failures. *)
Theorem reconcile_leaves_store_unchanged w :
  cidrSets (manager (world (reconcile w))) = cidrSets (manager w) ∧
  cidrSets (manager (world (addMissingCIDRs w))) = cidrSets (manager w) ∧
  cidrSets (manager (world (removeUnusedCIDRs w))) = cidrSets (manager w).
Proof.
  split; [apply reconcile_frame|].
  destruct (addMissingCIDRs_spec w) as (? & ? & _ & _ & _ & -> & _).
  by destruct (removeUnusedCIDRs_spec w) as (? & ? & _ & _ & _ & -> & _).
Qed.

(** A ready pass whose table updates all succeed leaves in the table what
    the store asks for. *)
Lemma pass_converges w :
  (K8sCacheIsSynced (k8sChecker (manager w))).1 = true →
  Forall succeeded (effects (reconcile w)) →
  dom (WorldCIDRsMap (world (reconcile w))) = desiredPrefixes (cidrSets (manager w)).
Proof.
  intros Hready Hok.
  rewrite reconcile_run in Hok |- *. rewrite Hready in Hok |- *.
  cbn [world effects fst snd] in Hok |- *.
  apply Forall_cons in Hok as [_ [Hok1 Hok2]%Forall_app].
  destruct (K8sCacheIsSynced__frame w) as (Hs & _ & Ht).
  revert Hok1 Hok2 Hs Ht. generalize (world (K8sCacheIsSynced_ w)).
  intros w0 Hok1 Hok2 Hs Ht.
  destruct (addMissingCIDRs_spec w0) as (? & ? & _ & _ & _ & Hm1 & _ & _ & _ & Hdom1).
  destruct (removeUnusedCIDRs_spec (world (addMissingCIDRs w0)))
    as (? & ? & _ & _ & _ & _ & _ & _ & _ & Hdom2).
  rewrite (Hdom2 Hok2), (Hdom1 Hok1), Hm1, Hs, Ht. set_tauto.
Qed.

(** C1 — Convergence: when [reconcile] runs while the oracle reports synced
    and every [Add] and [Delete] it issues succeeds, the prefixes of the
    table afterwards are exactly the normalized prefixes of the CIDR sets in
    the store, whatever the store and the table were. *)
Theorem reconcile_converges w :
  (K8sCacheIsSynced (k8sChecker (manager w))).1 = true →
  Forall succeeded (effects (reconcile w)) →
  dom (WorldCIDRsMap (world (reconcile w)))
  = desiredPrefixes (cidrSets (manager (world (reconcile w)))).
Proof.
  intros Hready Hok. rewrite (proj1 (reconcile_frame w)).
  by apply pass_converges.
Qed.

Lemma missingCIDRs_nil t cidrs :
  list_to_set (NewWorldCIDRKey4 <$> cidrs) ⊆ dom t → missingCIDRs t cidrs = [].
Proof.
  intros Hsub. apply elem_of_nil_inv. intros cidr.
  rewrite elem_of_missingCIDRs. intros [Hnot Hin]. apply Hnot, Hsub.
  rewrite elem_of_list_to_set. by apply list_elem_of_fmap_2.
Qed.

Lemma staleKeys_nil (t : gmap WorldCIDRKey4 WorldCIDRVal) desired keys :
  keys ≡ₚ (map_to_list t).*1 → dom t ⊆ desired → staleKeys desired keys = [].
Proof.
  intros Hp Hsub. apply elem_of_nil_inv. intros k.
  rewrite elem_of_staleKeys, Hp. intros [Hnot Hin]. apply Hnot, Hsub.
  by apply elem_of_map_to_list_fst.
Qed.

(** A table that holds exactly the desired prefixes is left alone: a pass
    issues no [Add] and no [Delete]. *)
Lemma reconcile_quiescent w :
  dom (WorldCIDRsMap w) = desiredPrefixes (cidrSets (manager w)) →
  addCalls (effects (reconcile w)) = [] ∧ deleteCalls (effects (reconcile w)) = [].
Proof.
  intros Hconv. rewrite reconcile_run.
  destruct (K8sCacheIsSynced__frame w) as (Hs & _ & Ht).
  destruct (K8sCacheIsSynced (k8sChecker (manager w))).1;
    cbn [world effects fst snd]; [|done].
  revert Hs Ht. generalize (world (K8sCacheIsSynced_ w)). intros w0 Hs Ht.
  destruct (addMissingCIDRs_spec w0)
    as (sets & errs1 & Hp1 & Hlen1 & Heff1 & Hm1 & _ & Hlow & Hupp & _).
  destruct (removeUnusedCIDRs_spec (world (addMissingCIDRs w0)))
    as (keys & errs2 & Hp2 & Hlen2 & Heff2 & _).
  assert (list_to_set (NewWorldCIDRKey4 <$> allCIDRs sets) ⊆ dom (WorldCIDRsMap w0))
    as Hsub1 by (by rewrite (desiredPrefixes_Permutation _ _ Hp1), Ht, Hs, Hconv).
  rewrite (missingCIDRs_nil _ _ Hsub1) in Hlen1, Heff1.
  assert (dom (WorldCIDRsMap (world (addMissingCIDRs w0)))
          ⊆ desiredPrefixes (cidrSets (manager (world (addMissingCIDRs w0)))))
    as Hsub2.
  { rewrite Hm1. etrans; [exact Hupp|]. rewrite Ht, Hs, Hconv. set_tauto. }
  rewrite (staleKeys_nil _ _ _ Hp2 Hsub2) in Hlen2, Heff2.
  apply nil_length_inv in Hlen1 as ->. apply nil_length_inv in Hlen2 as ->.
  by rewrite Heff1, Heff2.
Qed.

(** C3 (as amended) — Idempotence: when [reconcile] runs while the oracle
    reports synced and all its table updates succeed, a second [reconcile]
    right after it, with no change of the store in between, issues no [Add]
    and no [Delete]. *)
Theorem reconcile_idempotent w :
  (K8sCacheIsSynced (k8sChecker (manager w))).1 = true →
  Forall succeeded (effects (reconcile w)) →
  addCalls (effects (reconcile (world (reconcile w)))) = [] ∧
  deleteCalls (effects (reconcile (world (reconcile w)))) = [].
Proof.
  intros Hready Hok. apply reconcile_quiescent.
  rewrite (proj1 (reconcile_frame w)). by apply pass_converges.
Qed.

(** *** The handlers and the store *)

(** C9 — Deleting an identity the store does not hold is a successful
    no-op: [OnDeleteWorldCIDRSet] writes one warning and nothing else
    happens; the store and the whole process state are what they were, and
    the table adapter is not called. *)
Theorem OnDelete_unknown_identity_is_noop w i :
  cidrSets (manager w) !! i = None →
  OnDeleteWorldCIDRSet i w =
    (tt, w, [EvLog Warn [CiliumWorldCIDRSetName (Name i)]
               "Can't delete CiliumWorldCIDRSet: set not found"]) ∧
  cidrSets (manager (world (OnDeleteWorldCIDRSet i w))) = cidrSets (manager w) ∧
  filter isTableCall (effects (OnDeleteWorldCIDRSet i w)) = [].
Proof.
  intros Hi. by rewrite OnDeleteWorldCIDRSet_unknown.
Qed.

Lemma handle_store e w :
  cidrSets (manager (world (handle e w))) = storeAfter (cidrSets (manager w)) e.
Proof.
  destruct e as [cidrSet|i|]; cbn [handle storeAfter].
  - rewrite OnAddWorldCIDRSet_run. cbn [world fst snd].
    by rewrite (proj1 (reconcile_frame _)).
  - destruct (cidrSets (manager w) !! i) as [cidrSet|] eqn:Hi.
    + rewrite (OnDeleteWorldCIDRSet_known _ _ _ Hi). cbn [world fst snd].
      by rewrite (proj1 (reconcile_frame _)).
    + rewrite (OnDeleteWorldCIDRSet_unknown _ _ Hi). cbn [world fst snd].
      by rewrite delete_id.
  - rewrite gateStep_run. destruct (gate w); cbn [world fst snd].
    + destruct (K8sCacheIsSynced__frame w) as (Hs & _).
      by destruct (K8sCacheIsSynced (k8sChecker (manager w))).1.
    + apply (reconcile_frame w).
    + done.
Qed.

Lemma run_cons e es w :
  run (e :: es) w =
  (tt, world (run es (world (handle e w))),
   effects (handle e w) ++ effects (run es (world (handle e w)))).
Proof. apply forM__cons. Qed.

(** The store follows the events, ready or not. *)
Lemma run_store es w :
  cidrSets (manager (world (run es w))) = foldl storeAfter (cidrSets (manager w)) es.
Proof.
  revert w. induction es as [|e es IH]; intros w; [done|].
  rewrite run_cons. cbn [world fst snd foldl]. by rewrite IH, handle_store.
Qed.

(** A pass that was not told "synced" has done nothing but ask. *)
Lemma reconcile_not_ready w :
  EvSynced true ∉ effects (reconcile w) →
  effects (reconcile w) = [EvSynced false].
Proof.
  rewrite reconcile_run.
  destruct (K8sCacheIsSynced (k8sChecker (manager w))).1; cbn [effects snd]; [|done].
  intros []. left.
Qed.

Lemma handle_not_ready e w :
  EvSynced true ∉ effects (handle e w) →
  filter isTableCall (effects (handle e w)) = [].
Proof.
  destruct e as [cidrSet|i|]; cbn [handle].
  - rewrite OnAddWorldCIDRSet_run. cbn [effects snd].
    rewrite not_elem_of_cons. intros [_ Hnot].
    by rewrite (reconcile_not_ready _ Hnot).
  - destruct (cidrSets (manager w) !! i) as [cidrSet|] eqn:Hi.
    + rewrite (OnDeleteWorldCIDRSet_known _ _ _ Hi). cbn [effects snd].
      rewrite not_elem_of_cons. intros [_ Hnot].
      by rewrite (reconcile_not_ready _ Hnot).
    + by rewrite (OnDeleteWorldCIDRSet_unknown _ _ Hi).
  - rewrite gateStep_run. destruct (gate w); cbn [effects snd]; [done| |done].
    intros Hnot. by rewrite (reconcile_not_ready _ Hnot).
Qed.

(** C4 — Before readiness: for every sequence of events (calls of
    [OnAddWorldCIDRSet] and [OnDeleteWorldCIDRSet], and steps of the sync
    gate) during which the oracle never reports synced, the store ends as
    the events alone determine, which is also how it ends from any other
    process state with the same store, ready or not; and the table adapter
    is not called: no [IterateWithCallback], no [Add], no [Delete]. *)
Theorem events_before_readiness es w :
  EvSynced true ∉ effects (run es w) →
  cidrSets (manager (world (run es w))) = foldl storeAfter (cidrSets (manager w)) es ∧
  (∀ w', cidrSets (manager w') = cidrSets (manager w) →
         cidrSets (manager (world (run es w')))
         = cidrSets (manager (world (run es w)))) ∧
  filter isTableCall (effects (run es w)) = [].
Proof.
  intros Hnot. split; [apply run_store|]. split.
  { intros w' Hw'. by rewrite !run_store, Hw'. }
  revert w Hnot. induction es as [|e es IH]; intros w Hnot; [done|].
  rewrite run_cons in Hnot |- *. cbn [effects snd] in Hnot |- *.
  rewrite not_elem_of_app in Hnot. destruct Hnot as [Hnot1 Hnot2].
  by rewrite filter_app, (handle_not_ready _ _ Hnot1), (IH _ Hnot2).
Qed.

(** C6 — Update overwrite: when the store holds an entry under the identity
    of [cidrSet], [OnAddWorldCIDRSet cidrSet] logs an update and replaces
    the entry; the store then maps the identity to [cidrSet] itself, and any
    later pass that runs ready with all its table updates succeeding, the
    handler's own one included, leaves in the table exactly the prefixes of
    [cidrSet] and those of the sets under the other identities. *)
Theorem OnAdd_replaces_entry w cidrSet old :
  cidrSets (manager w) !! id cidrSet = Some old →
  head (effects (OnAddWorldCIDRSet cidrSet w))
    = Some (EvLog Info [CiliumWorldCIDRSetName (Name (id cidrSet))]
              "Updated CiliumWorldCIDRSet") ∧
  cidrSets (manager (world (OnAddWorldCIDRSet cidrSet w)))
    = <[id cidrSet := cidrSet]> (cidrSets (manager w)) ∧
  cidrSets (manager (world (OnAddWorldCIDRSet cidrSet w))) !! id cidrSet
    = Some cidrSet ∧
  ((K8sCacheIsSynced (k8sChecker (manager w))).1 = true →
   Forall succeeded (effects (OnAddWorldCIDRSet cidrSet w)) →
   dom (WorldCIDRsMap (world (OnAddWorldCIDRSet cidrSet w)))
   = list_to_set (NewWorldCIDRKey4 <$> cidrs cidrSet)
     ∪ desiredPrefixes (delete (id cidrSet) (cidrSets (manager w)))) ∧
  (∀ w',
     cidrSets (manager w') = cidrSets (manager (world (OnAddWorldCIDRSet cidrSet w))) →
     (K8sCacheIsSynced (k8sChecker (manager w'))).1 = true →
     Forall succeeded (effects (reconcile w')) →
     dom (WorldCIDRsMap (world (reconcile w')))
     = list_to_set (NewWorldCIDRKey4 <$> cidrs cidrSet)
       ∪ desiredPrefixes (delete (id cidrSet) (cidrSets (manager w)))).
Proof.
  intros Hold.
  assert (cidrSets (manager (world (OnAddWorldCIDRSet cidrSet w)))
          = <[id cidrSet := cidrSet]> (cidrSets (manager w))) as Hstore
    by apply (handle_store (AddOrUpdate cidrSet)).
  split; [by rewrite OnAddWorldCIDRSet_run, Hold|].
  split; [done|]. split; [by rewrite Hstore, lookup_insert_eq|]. split.
  - intros Hready Hok. rewrite <-desiredPrefixes_insert, <-Hstore.
    rewrite OnAddWorldCIDRSet_run in Hok |- *. cbn [world effects fst snd] in Hok |- *.
    apply Forall_cons in Hok as [_ Hok].
    rewrite OnAddWorldCIDRSet_run in Hstore. cbn [world fst snd] in Hstore.
    rewrite Hstore, <-(proj1 (reconcile_frame _)), (proj1 (reconcile_frame _)).
    by apply pass_converges.
  - intros w' Hw' Hready Hok. rewrite <-desiredPrefixes_insert, <-Hstore, <-Hw'.
    by apply pass_converges.
Qed.

(** *** The order and the extent of the table updates *)

Lemma Forall_mjoin_zip_with {A B} (P : Effect → Prop) (f : A → B → list Effect)
    (l1 : list A) (l2 : list B) :
  (∀ a b, Forall P (f a b)) → Forall P (mjoin (zip_with f l1 l2)).
Proof.
  intros Hf. revert l2. induction l1 as [|a l1 IH]; intros [|b l2]; simpl;
    try constructor.
  apply Forall_app. auto.
Qed.

Lemma addCalls_addRecords cidrs errs :
  length errs = length cidrs →
  addCalls (mjoin (zip_with addRecord cidrs errs)) = cidrs.
Proof.
  revert errs. induction cidrs as [|c cidrs IH]; intros [|err errs] Hlen;
    simplify_eq/=; [done|].
  unfold addCalls in *. simpl. rewrite IH by done.
  unfold addLog. by case_decide.
Qed.

Lemma deleteCalls_deleteRecords keys errs :
  length errs = length keys →
  deleteCalls (mjoin (zip_with deleteRecord keys errs)) = GetCIDR <$> keys.
Proof.
  revert errs. induction keys as [|k keys IH]; intros [|err errs] Hlen;
    simplify_eq/=; [done|].
  unfold deleteCalls in *. simpl. rewrite IH by done.
  unfold deleteLog. by case_decide.
Qed.

Lemma addCalls_cons e tr :
  addCalls (e :: tr) = (if e is EvAdd cidr _ then [cidr] else []) ++ addCalls tr.
Proof. by destruct e. Qed.

Lemma deleteCalls_cons e tr :
  deleteCalls (e :: tr) = (if e is EvDelete cidr _ then [cidr] else []) ++ deleteCalls tr.
Proof. by destruct e. Qed.

Lemma addCalls_app tr1 tr2 : addCalls (tr1 ++ tr2) = addCalls tr1 ++ addCalls tr2.
Proof. apply omap_app. Qed.

Lemma deleteCalls_app tr1 tr2 :
  deleteCalls (tr1 ++ tr2) = deleteCalls tr1 ++ deleteCalls tr2.
Proof. apply omap_app. Qed.

Lemma addCalls_deleteRecords keys errs :
  addCalls (mjoin (zip_with deleteRecord keys errs)) = [].
Proof.
  revert errs. induction keys as [|k keys IH]; intros [|err errs]; try done.
  simpl. unfold addCalls in *. simpl. rewrite IH.
  unfold deleteLog. by case_decide.
Qed.

Lemma deleteCalls_addRecords cidrs errs :
  deleteCalls (mjoin (zip_with addRecord cidrs errs)) = [].
Proof.
  revert errs. induction cidrs as [|c cidrs IH]; intros [|err errs]; try done.
  simpl. unfold deleteCalls in *. simpl. rewrite IH.
  unfold addLog. by case_decide.
Qed.


Lemma addRecord_no_delete cidr err : Forall (λ e, isDelete e = false) (addRecord cidr err).
Proof. unfold addRecord, addLog. case_decide; by repeat constructor. Qed.

Lemma deleteRecord_no_add k err : Forall (λ e, isAdd e = false) (deleteRecord k err).
Proof. unfold deleteRecord, deleteLog. case_decide; by repeat constructor. Qed.

(** The effects of a pass fall in two parts: no [Delete] in the first, no
    [Add] in the second. *)
Lemma reconcile_effects_shape w :
  ∃ tr1 tr2,
    effects (reconcile w) = tr1 ++ tr2 ∧
    Forall (λ e, isDelete e = false) tr1 ∧
    Forall (λ e, isAdd e = false) tr2.
Proof.
  rewrite reconcile_run.
  destruct (K8sCacheIsSynced (k8sChecker (manager w))).1; cbn [effects snd].
  - generalize (world (K8sCacheIsSynced_ w)). intros w0.
    destruct (addMissingCIDRs_spec w0) as (? & ? & _ & _ & Heff1 & _).
    destruct (removeUnusedCIDRs_spec (world (addMissingCIDRs w0)))
      as (? & ? & _ & _ & Heff2 & _).
    exists (EvSynced true :: effects (addMissingCIDRs w0)),
      (effects (removeUnusedCIDRs (world (addMissingCIDRs w0)))).
    split; [done|]. rewrite Heff1, Heff2. split.
    + do 2 (constructor; [done|]).
      apply Forall_mjoin_zip_with, addRecord_no_delete.
    + constructor; [done|].
      apply Forall_mjoin_zip_with, deleteRecord_no_add.
  - exists [EvSynced false], []. by repeat constructor.
Qed.

(** C2 — Phase ordering: among the effects of one pass, every [Add] comes
    before every [Delete], whatever the store, the table and the outcomes of
    the calls are. *)
Theorem adds_precede_deletes w i j cidr err cidr' err' :
  effects (reconcile w) !! i = Some (EvAdd cidr err) →
  effects (reconcile w) !! j = Some (EvDelete cidr' err') →
  (i < j)%nat.
Proof.
  destruct (reconcile_effects_shape w) as (tr1 & tr2 & -> & Hnodel & Hnoadd).
  intros Hi Hj.
  apply lookup_app_Some in Hi as [Hi|[_ Hi]];
    [|by apply (Forall_lookup_1 _ _ _ _ Hnoadd) in Hi].
  apply lookup_app_Some in Hj as [Hj|[Hj _]];
    [by apply (Forall_lookup_1 _ _ _ _ Hnodel) in Hj|].
  apply lookup_lt_Some in Hi. lia.
Qed.

(** C7 — Exact matching in phase 2: for an entry [k] of the table,
    [removeUnusedCIDRs] calls [Delete] for it if and only if no prefix of
    any CIDR set has, once normalized, exactly the key [k]. *)
Theorem removeUnused_deletes_unmatched w k :
  k ∈ dom (WorldCIDRsMap w) →
  GetCIDR k ∈ deleteCalls (effects (removeUnusedCIDRs w)) ↔
  (∀ i cidrSet cidr,
      cidrSets (manager w) !! i = Some cidrSet → cidr ∈ cidrs cidrSet →
      NewWorldCIDRKey4 cidr ≠ k).
Proof.
  intros Hk.
  destruct (removeUnusedCIDRs_spec w) as (keys & errs & Hp & Hlen & -> & _).
  change (deleteCalls (EvIterate :: ?tr)) with (deleteCalls tr).
  rewrite deleteCalls_deleteRecords by done.
  rewrite (list_elem_of_fmap_inj GetCIDR), elem_of_staleKeys, Hp,
    elem_of_map_to_list_fst, elem_of_desiredPrefixes.
  split.
  - intros [Hnot _] i cidrSet cidr Hi Hc <-. apply Hnot. by exists i, cidrSet, cidr.
  - intros Hall. split; [|done]. intros (i & cidrSet & cidr & Hi & Hc & ->).
    by apply (Hall i cidrSet cidr).
Qed.






(** *** Readiness *)

Lemma noSync_not_elem tr b :
  Forall (λ e, isSynced e = false) tr → EvSynced b ∉ tr.
Proof.
  intros Hno Hin. by apply (proj1 (Forall_forall _ _) Hno) in Hin.
Qed.

Lemma latched_app_noSync pre tr :
  Forall (λ e, isSynced e = false) pre → latched (pre ++ tr) ↔ latched tr.
Proof.
  induction 1 as [|e pre He _ IH]; [done|]. by destruct e.
Qed.

Lemma latched_split tr1 tr2 :
  latched (tr1 ++ EvSynced true :: tr2) → EvSynced false ∉ tr2.
Proof.
  induction tr1 as [|e tr1 IH]; [done|].
  destruct e as [[]| | | |]; simpl; auto.
  rewrite not_elem_of_app, not_elem_of_cons. tauto.
Qed.

Lemma addRecord_noSync cidr err : Forall (λ e, isSynced e = false) (addRecord cidr err).
Proof. unfold addRecord, addLog. case_decide; by repeat constructor. Qed.

Lemma deleteRecord_noSync k err : Forall (λ e, isSynced e = false) (deleteRecord k err).
Proof. unfold deleteRecord, deleteLog. case_decide; by repeat constructor. Qed.

Lemma K8sCacheIsSynced__checker w :
  k8sChecker (manager (world (K8sCacheIsSynced_ w)))
  = (K8sCacheIsSynced (k8sChecker (manager w))).2.
Proof.
  unfold K8sCacheIsSynced_. by destruct (K8sCacheIsSynced _) as [b o].
Qed.

(** A call of [reconcile] asks the oracle once, first, and not again. *)
Lemma reconcile_oracle w :
  ∃ rest,
    effects (reconcile w)
      = EvSynced (K8sCacheIsSynced (k8sChecker (manager w))).1 :: rest ∧
    Forall (λ e, isSynced e = false) rest ∧
    k8sChecker (manager (world (reconcile w)))
      = (K8sCacheIsSynced (k8sChecker (manager w))).2.
Proof.
  rewrite reconcile_run. pose proof (K8sCacheIsSynced__checker w) as Hc.
  destruct (K8sCacheIsSynced (k8sChecker (manager w))).1; cbn [world effects fst snd].
  - revert Hc. generalize (world (K8sCacheIsSynced_ w)). intros w0 Hc.
    destruct (addMissingCIDRs_spec w0) as (? & ? & _ & _ & Heff1 & Hm1 & _).
    destruct (removeUnusedCIDRs_spec (world (addMissingCIDRs w0)))
      as (? & ? & _ & _ & Heff2 & Hm2 & _).
    eexists. split; [done|]. rewrite Heff1, Heff2, Hm2, Hm1. split; [|done].
    apply Forall_app. split; (constructor; [done|]);
      apply Forall_mjoin_zip_with; auto using addRecord_noSync, deleteRecord_noSync.
  - exists []. by repeat split.
Qed.

(** A step of the process asks the oracle at most once. *)
Lemma handle_oracle e w :
  (Forall (λ e, isSynced e = false) (effects (handle e w)) ∧
   k8sChecker (manager (world (handle e w))) = k8sChecker (manager w)) ∨
  (∃ pre rest,
     effects (handle e w)
       = pre ++ EvSynced (K8sCacheIsSynced (k8sChecker (manager w))).1 :: rest ∧
     Forall (λ e, isSynced e = false) pre ∧
     Forall (λ e, isSynced e = false) rest ∧
     k8sChecker (manager (world (handle e w)))
       = (K8sCacheIsSynced (k8sChecker (manager w))).2).
Proof.
  destruct e as [cidrSet|i|]; cbn [handle].
  - right. rewrite OnAddWorldCIDRSet_run. cbn [world effects fst snd].
    destruct (reconcile_oracle (setManager (mkManager (k8sChecker (manager w))
                (<[id cidrSet := cidrSet]> (cidrSets (manager w)))) w))
      as (rest & -> & Hrest & ->).
    eexists [_], rest. by repeat split; [repeat constructor|..].
  - destruct (cidrSets (manager w) !! i) as [cidrSet|] eqn:Hi.
    + right. rewrite (OnDeleteWorldCIDRSet_known _ _ _ Hi). cbn [world effects fst snd].
      destruct (reconcile_oracle (setManager (mkManager (k8sChecker (manager w))
                  (delete i (cidrSets (manager w)))) w))
        as (rest & -> & Hrest & ->).
      eexists [_], rest. by repeat split; [repeat constructor|..].
    + left. rewrite (OnDeleteWorldCIDRSet_unknown _ _ Hi). by repeat constructor.
  - rewrite gateStep_run. destruct (gate w); cbn [world effects fst snd].
    + right. exists [], []. repeat split; try done.
      rewrite <-K8sCacheIsSynced__checker.
      by destruct (K8sCacheIsSynced (k8sChecker (manager w))).1.
    + right. destruct (reconcile_oracle w) as (rest & -> & Hrest & Hc).
      by exists [], rest.
    + left. by repeat constructor.
Qed.

Section latching.
Context `{!Latching O}.

(** With an oracle that never goes back, a process whose oracle answers
    synced never sees it answer otherwise. *)
Lemma run_ready es w :
  (K8sCacheIsSynced (k8sChecker (manager w))).1 = true →
  EvSynced false ∉ effects (run es w).
Proof.
  revert w. induction es as [|e es IH]; intros w Hready; [by intros ?%elem_of_nil|].
  rewrite run_cons. cbn [effects snd]. rewrite not_elem_of_app.
  destruct (handle_oracle e w) as [[Hno Hc]|(pre & rest & Heff & Hpre & Hrest & Hc)].
  - split; [by apply noSync_not_elem|]. apply IH. by rewrite Hc.
  - split.
    + rewrite Heff, Hready, not_elem_of_app, not_elem_of_cons.
      by repeat split; try apply noSync_not_elem.
    + apply IH. rewrite Hc. by apply latching.
Qed.

Lemma run_latched es w : latched (effects (run es w)).
Proof.
  revert w. induction es as [|e es IH]; intros w; [done|].
  rewrite run_cons. cbn [effects snd].
  destruct (handle_oracle e w) as [[Hno Hc]|(pre & rest & -> & Hpre & Hrest & Hc)].
  - by apply latched_app_noSync.
  - rewrite <-app_assoc. apply latched_app_noSync; [done|].
    rewrite <-app_comm_cons.
    destruct (K8sCacheIsSynced (k8sChecker (manager w))).1 eqn:Hready; simpl.
    + rewrite not_elem_of_app. split; [by apply noSync_not_elem|].
      apply run_ready. rewrite Hc. by apply latching.
    + by apply latched_app_noSync.
Qed.

End latching.

(** C5 (as amended) — The manager keeps no readiness flag of its own.  Each
    call of [reconcile] asks the oracle, and it is a no-op that never calls
    the table adapter exactly when the oracle answers not-synced at that
    call, whatever it answered before.  Readiness is permanent only as far
    as the oracle is: with an oracle that never goes back from synced to
    not-synced, after a first positive answer no later call of [reconcile],
    from a handler or from the sync gate, is a not-ready no-op. *)
Theorem readiness_is_the_oracle_answer w :
  (filter isTableCall (effects (reconcile w)) = [] ↔
   (K8sCacheIsSynced (k8sChecker (manager w))).1 = false) ∧
  ((K8sCacheIsSynced (k8sChecker (manager w))).1 = false →
   reconcile w = (tt, world (K8sCacheIsSynced_ w), [EvSynced false])) ∧
  (Latching O →
   ∀ es tr1 tr2,
     effects (run es w) = tr1 ++ EvSynced true :: tr2 → EvSynced false ∉ tr2).
Proof.
  split; [|split].
  - rewrite reconcile_run.
    destruct (K8sCacheIsSynced (k8sChecker (manager w))).1; cbn [effects snd]; [|done].
    destruct (addMissingCIDRs_spec (world (K8sCacheIsSynced_ w)))
      as (? & ? & _ & _ & -> & _).
    by split.
  - intros Hnot. by rewrite reconcile_run, Hnot.
  - intros Hlatch es tr1 tr2 Heff. apply (latched_split tr1).
    rewrite <-Heff. apply run_latched.
Qed.

End runs.

(** ** The claims at work on concrete processes *)

Ltac decide_by_computation := apply (bool_decide_unpack _); vm_compute; exact I.

(** The scenario of the specification: A, then B, then A deleted, then B
    deleted. *)
Example scenario_tables :
  let w0 := NewWorldCIDRsManager alwaysSynced ∅ [] [] in
  let w1 := world (run [AddOrUpdate setA] w0) in
  let w2 := world (run [AddOrUpdate setB] w1) in
  let w3 := world (run [DeleteSet idA] w2) in
  let w4 := world (run [DeleteSet idB] w3) in
  WorldCIDRsMap w1 = tableOf [net10] ∧
  WorldCIDRsMap w2 = tableOf [net10; net192] ∧
  WorldCIDRsMap w3 = tableOf [net10; net192] ∧
  filter isUpdate (effects (run [DeleteSet idA] w2)) = [] ∧
  WorldCIDRsMap w4 = ∅.
Proof. intros. split_and!; decide_by_computation. Qed.

(** One failing [Add] out of three, and a stale entry. *)
Example failing_add_trace :
  effects (reconcile (processOf alwaysSynced [wideA] [net172] [false; true]))
  = [EvSynced true; EvIterate;
     EvAdd net10 errNil; EvLog Info [CIDR net10] "World CIDR added";
     EvAdd net192 EIO;
     EvLog Error [CIDR net192; WithError EIO] "Error adding world CIDR";
     EvAdd net10_1 errNil; EvLog Info [CIDR net10_1] "World CIDR added";
     EvIterate;
     EvDelete net172 errNil; EvLog Info [CIDR net172] "World CIDR removed"].
Proof. vm_compute. reflexivity. Qed.

(** The same prefix in two sets is added twice in one pass: the snapshot of
    phase 1 is not brought up to date. *)
Example shared_prefix_added_twice :
  addCalls (effects (reconcile (processOf alwaysSynced [setA; setB] [] [])))
  = [net10; net10; net192].
Proof. vm_compute. reflexivity. Qed.

Lemma reconcile_converges_witness :
  let w := processOf alwaysSynced [setA; setB] [net172; net10] [] in
  (K8sCacheIsSynced (k8sChecker (manager w))).1 = true ∧
  Forall succeeded (effects (reconcile w)) ∧
  dom (WorldCIDRsMap (world (reconcile w)))
  = desiredPrefixes (cidrSets (manager (world (reconcile w)))).
Proof.
  intros w.
  assert ((K8sCacheIsSynced (k8sChecker (manager w))).1 = true) as Hready
    by reflexivity.
  assert (Forall succeeded (effects (reconcile w))) as Hok
    by decide_by_computation.
  split; [exact Hready|]. split; [exact Hok|].
  exact (reconcile_converges w Hready Hok).
Defined.

Lemma adds_precede_deletes_witness :
  let w := processOf alwaysSynced [setA] [net172] [] in
  effects (reconcile w) !! 2%nat = Some (EvAdd net10 errNil) ∧
  effects (reconcile w) !! 5%nat = Some (EvDelete net172 errNil) ∧
  (2 < 5)%nat.
Proof.
  intros w.
  assert (effects (reconcile w) !! 2%nat = Some (EvAdd net10 errNil)) as Hadd
    by (vm_compute; reflexivity).
  assert (effects (reconcile w) !! 5%nat = Some (EvDelete net172 errNil)) as Hdel
    by (vm_compute; reflexivity).
  split; [exact Hadd|]. split; [exact Hdel|].
  exact (adds_precede_deletes w 2 5 net10 errNil net172 errNil Hadd Hdel).
Defined.

Lemma reconcile_idempotent_witness :
  let w := processOf alwaysSynced [setA; setB] [net172; net10] [] in
  (K8sCacheIsSynced (k8sChecker (manager w))).1 = true ∧
  Forall succeeded (effects (reconcile w)) ∧
  addCalls (effects (reconcile (world (reconcile w)))) = [] ∧
  deleteCalls (effects (reconcile (world (reconcile w)))) = [].
Proof.
  intros w.
  assert ((K8sCacheIsSynced (k8sChecker (manager w))).1 = true) as Hready
    by reflexivity.
  assert (Forall succeeded (effects (reconcile w))) as Hok
    by decide_by_computation.
  split; [exact Hready|]. split; [exact Hok|].
  exact (reconcile_idempotent w Hready Hok).
Defined.

(** C3, as stated, fails: a first [reconcile] that finds the oracle
    not-synced does no table I/O at all, so none of it fails; the store does
    not change; and the second [reconcile], which finds the oracle synced,
    issues an [Add]. *)
Lemma reconcile_not_idempotent_across_readiness :
  let w := processOf (mkScripted [false] true) [setA] [] [] in
  effects (reconcile w) = [EvSynced false] ∧
  Forall succeeded (effects (reconcile w)) ∧
  cidrSets (manager (world (reconcile w))) = cidrSets (manager w) ∧
  addCalls (effects (reconcile (world (reconcile w)))) = [net10].
Proof.
  intros w. split; [vm_compute; reflexivity|].
  split; [decide_by_computation|].
  split; [decide_by_computation|vm_compute; reflexivity].
Qed.

Lemma events_before_readiness_witness :
  let w := NewWorldCIDRsManager neverSynced (tableOf [net172]) [] [] in
  let es := [AddOrUpdate oldA; GateStep; DeleteSet idB; AddOrUpdate setB;
             AddOrUpdate setA; DeleteSet idB] in
  (EvSynced true ∉ effects (run es w)) ∧
  cidrSets (manager (world (run es w))) = storeOf [setA] ∧
  filter isTableCall (effects (run es w)) = [].
Proof.
  intros w es.
  assert (EvSynced true ∉ effects (run es w)) as Hnot by decide_by_computation.
  destruct (events_before_readiness es w Hnot) as (Hstore & _ & Hcalls).
  split; [exact Hnot|]. split; [|exact Hcalls].
  rewrite Hstore. decide_by_computation.
Defined.

Global Instance syncsAfter_latching : Latching syncsAfter.
Proof. by intros [[|n]]. Qed.

Lemma readiness_is_the_oracle_answer_witness :
  let w := NewWorldCIDRsManager (mkSyncsAfter 1) (tableOf [net172]) [] [] in
  let es := [AddOrUpdate setA; GateStep; GateStep; AddOrUpdate setB] in
  effects (run es w)
  = take 2 (effects (run es w)) ++ EvSynced true :: drop 3 (effects (run es w)) ∧
  (EvSynced false ∉ drop 3 (effects (run es w))) ∧
  (filter isTableCall (effects (reconcile w)) = [] ↔
   (K8sCacheIsSynced (k8sChecker (manager w))).1 = false).
Proof.
  intros w es.
  assert (effects (run es w)
          = take 2 (effects (run es w)) ++ EvSynced true :: drop 3 (effects (run es w)))
    as Hsplit by (vm_compute; reflexivity).
  destruct (readiness_is_the_oracle_answer w) as (Hcall & _ & Hlatch).
  split; [exact Hsplit|]. split; [|exact Hcall].
  exact (Hlatch syncsAfter_latching es _ _ Hsplit).
Defined.

(** C5, as stated, fails: the sync gate has seen the oracle report synced and
    has run its pass; the oracle then reports not-synced, and the
    [reconcile] of the next event is a not-ready no-op: the table adapter is
    not called and the prefix of the new set stays out of the table. *)
Lemma readiness_is_not_latched :
  let w0 := NewWorldCIDRsManager (mkScripted [true; true] false) ∅ [] [] in
  let w := world (run [GateStep; GateStep] w0) in
  effects (run [GateStep; GateStep] w0)
  = [EvSynced true; EvSynced true; EvIterate; EvIterate] ∧
  gate w = GateDone ∧
  effects (OnAddWorldCIDRSet setA w)
  = [EvLog Info [CiliumWorldCIDRSetName "A"] "Added CiliumWorldCIDRSet";
     EvSynced false] ∧
  cidrSets (manager (world (OnAddWorldCIDRSet setA w))) !! idA = Some setA ∧
  WorldCIDRsMap (world (OnAddWorldCIDRSet setA w)) = ∅.
Proof.
  intros. split_and!; [vm_compute; reflexivity..|decide_by_computation].
Qed.

Lemma OnAdd_replaces_entry_witness :
  let w := processOf alwaysSynced [oldA; setB] [net172; net10; net192] [] in
  cidrSets (manager w) !! id setA = Some oldA ∧
  cidrSets (manager (world (OnAddWorldCIDRSet setA w))) !! id setA = Some setA ∧
  dom (WorldCIDRsMap (world (OnAddWorldCIDRSet setA w)))
  = list_to_set (NewWorldCIDRKey4 <$> cidrs setA)
    ∪ desiredPrefixes (delete (id setA) (cidrSets (manager w))) ∧
  NewWorldCIDRKey4 net172 ∉ dom (WorldCIDRsMap (world (OnAddWorldCIDRSet setA w))).
Proof.
  intros w.
  assert (cidrSets (manager w) !! id setA = Some oldA) as Hold
    by (vm_compute; reflexivity).
  destruct (OnAdd_replaces_entry w setA oldA Hold) as (_ & _ & Hnew & Hdom & _).
  split; [exact Hold|]. split; [exact Hnew|]. split.
  - apply Hdom; [reflexivity|decide_by_computation].
  - decide_by_computation.
Defined.

Lemma removeUnused_deletes_unmatched_witness :
  let w := processOf alwaysSynced [setA] [net10; net10_1; net172] [] in
  let k := NewWorldCIDRKey4 net10_1 in
  k ∈ dom (WorldCIDRsMap w) ∧
  covers net10 (GetCIDR k) ∧
  GetCIDR k ∈ deleteCalls (effects (removeUnusedCIDRs w)) ∧
  (∀ i cidrSet cidr,
      cidrSets (manager w) !! i = Some cidrSet → cidr ∈ cidrs cidrSet →
      NewWorldCIDRKey4 cidr ≠ k).
Proof.
  intros w k.
  assert (k ∈ dom (WorldCIDRsMap w)) as Hk by decide_by_computation.
  assert (GetCIDR k ∈ deleteCalls (effects (removeUnusedCIDRs w))) as Hdel
    by decide_by_computation.
  split; [exact Hk|]. split; [by split|]. split; [exact Hdel|].
  exact (proj1 (removeUnused_deletes_unmatched w k Hk) Hdel).
Defined.


Lemma OnDelete_unknown_identity_is_noop_witness :
  let w := processOf alwaysSynced [setA] [net10] [] in
  cidrSets (manager w) !! idB = None ∧
  OnDeleteWorldCIDRSet idB w =
    (tt, w, [EvLog Warn [CiliumWorldCIDRSetName (Name idB)]
               "Can't delete CiliumWorldCIDRSet: set not found"]).
Proof.
  intros w.
  assert (cidrSets (manager w) !! idB = None) as Hnone
    by (vm_compute; reflexivity).
  split; [exact Hnone|].
  exact (proj1 (OnDelete_unknown_identity_is_noop w idB Hnone)).
Defined.

(** * Further properties of the manager *)

Section more_runs.
Context {O : Type} `{!k8sCacheSyncedChecker O}.
Implicit Types (w : World (O:=O)) (tr : list Effect).

(** ** What a pass does to the table, failures or not *)

Lemma pass_table_bounds w :
  dom (WorldCIDRsMap w) ∩ desiredPrefixes (cidrSets (manager w))
    ⊆ dom (WorldCIDRsMap (world (reconcile w))) ∧
  dom (WorldCIDRsMap (world (reconcile w)))
    ⊆ dom (WorldCIDRsMap w) ∪ desiredPrefixes (cidrSets (manager w)).
Proof.
  rewrite reconcile_run.
  destruct (K8sCacheIsSynced__frame w) as (Hs & _ & Ht).
  destruct (K8sCacheIsSynced (k8sChecker (manager w))).1; cbn [world fst snd].
  - revert Hs Ht. generalize (world (K8sCacheIsSynced_ w)). intros w0 Hs Ht.
    destruct (addMissingCIDRs_spec w0) as (_ & _ & _ & _ & _ & Hm1 & _ & Hlow1 & Hupp1 & _).
    destruct (removeUnusedCIDRs_spec (world (addMissingCIDRs w0)))
      as (_ & _ & _ & _ & _ & _ & _ & Hupp2 & Hlow2 & _).
    rewrite Hm1 in Hlow2. rewrite Hs, Ht in *. split.
    + etrans; [|exact Hlow2]. intros k [Hk HD]%elem_of_intersection.
      apply elem_of_intersection. split; [by apply Hlow1|done].
    + etrans; [exact Hupp2|exact Hupp1].
  - rewrite Ht. split; set_tauto.
Qed.

(** X1 — No disruption, no stray entry: whatever the readiness and whichever
    table updates fail, phase 1 removes no entry, phase 2 adds none, and a
    pass keeps every desired prefix the table had and leaves in the table
    only prefixes that it had or that are desired. *)
Theorem pass_keeps_desired_entries w :
  dom (WorldCIDRsMap w) ⊆ dom (WorldCIDRsMap (world (addMissingCIDRs w))) ∧
  dom (WorldCIDRsMap (world (removeUnusedCIDRs w))) ⊆ dom (WorldCIDRsMap w) ∧
  dom (WorldCIDRsMap w) ∩ desiredPrefixes (cidrSets (manager w))
    ⊆ dom (WorldCIDRsMap (world (reconcile w))) ∧
  dom (WorldCIDRsMap (world (reconcile w)))
    ⊆ dom (WorldCIDRsMap w) ∪ desiredPrefixes (cidrSets (manager w)).
Proof.
  destruct (addMissingCIDRs_spec w) as (_ & _ & _ & _ & _ & _ & _ & Hlow1 & _).
  destruct (removeUnusedCIDRs_spec w) as (_ & _ & _ & _ & _ & _ & _ & Hupp2 & _).
  destruct (pass_table_bounds w). by split_and!.
Qed.

(** ** Acknowledged updates *)

Lemma elem_of_addRecords cidrs errs cidr err :
  EvAdd cidr err ∈ mjoin (zip_with addRecord cidrs errs) → cidr ∈ cidrs.
Proof.
  revert errs. induction cidrs as [|c cidrs IH]; intros [|e errs]; simpl;
    try by intros ?%elem_of_nil.
  rewrite !elem_of_cons. intros [Heq|[Hlog|Hin]].
  - injection Heq as -> _. by left.
  - unfold addLog in Hlog. by case_decide.
  - right. eauto.
Qed.

Lemma elem_of_deleteRecords keys errs cidr err :
  EvDelete cidr err ∈ mjoin (zip_with deleteRecord keys errs) →
  ∃ k, k ∈ keys ∧ cidr = GetCIDR k.
Proof.
  revert errs. induction keys as [|k keys IH]; intros [|e errs]; simpl;
    try by intros ?%elem_of_nil.
  rewrite !elem_of_cons. intros [Heq|[Hlog|Hin]].
  - injection Heq as -> _. exists k. split; [by left|done].
  - unfold deleteLog in Hlog. by case_decide.
  - destruct (IH _ Hin) as (k' & ? & ?). exists k'. split; [by right|done].
Qed.

Lemma not_add_in_deleteRecords keys errs cidr err :
  EvAdd cidr err ∉ mjoin (zip_with deleteRecord keys errs).
Proof.
  intros Hin.
  by apply (proj1 (Forall_forall _ _)
              (Forall_mjoin_zip_with _ _ keys errs deleteRecord_no_add)) in Hin.
Qed.

Lemma not_delete_in_addRecords cidrs errs cidr err :
  EvDelete cidr err ∉ mjoin (zip_with addRecord cidrs errs).
Proof.
  intros Hin.
  by apply (proj1 (Forall_forall _ _)
              (Forall_mjoin_zip_with _ _ cidrs errs addRecord_no_delete)) in Hin.
Qed.

(** An [Add] that returned no error has put its key in the table, and the
    rest of phase 1 leaves it there. *)
Lemma addLoop_acknowledged snap cidrs w cidr :
  EvAdd cidr errNil ∈ effects (forM_ (addCIDR snap) cidrs w) →
  NewWorldCIDRKey4 cidr ∈ dom (WorldCIDRsMap (world (forM_ (addCIDR snap) cidrs w))).
Proof.
  revert w. induction cidrs as [|c cidrs IH]; intros w; [by intros ?%elem_of_nil|].
  rewrite forM__cons. cbn [world effects fst snd].
  destruct (decide (snap !! NewWorldCIDRKey4 c = None)) as [Hc|Hc].
  - rewrite addCIDR_missing by done. cbn [world effects fst snd].
    rewrite elem_of_app. intros [Hhead|Hrest]; [|by apply IH].
    unfold addRecord, addLog, faultErr in Hhead.
    destruct (addLoop_spec snap cidrs
                (setEntries (if hd false (faults w) then WorldCIDRsMap w
                             else <[NewWorldCIDRKey4 c:=1%Z]> (WorldCIDRsMap w))
                   (setFaults (tail (faults w)) w)))
      as (_ & _ & _ & _ & _ & Hlow & _).
    apply Hlow. cbn [WorldCIDRsMap setEntries].
    destruct (hd false (faults w)).
    + apply elem_of_cons in Hhead as [?|Hhead]; [done|].
      by apply list_elem_of_singleton in Hhead.
    + apply elem_of_cons in Hhead as [Heq|Hhead].
      * injection Heq as ->. rewrite dom_insert_L. apply elem_of_union_l.
        by apply elem_of_singleton.
      * by apply list_elem_of_singleton in Hhead.
  - rewrite addCIDR_present by done. cbn [world effects fst snd]. apply IH.
Qed.

(** A [Delete] that returned no error has taken its key out of the table,
    and the rest of phase 2 does not bring it back. *)
Lemma removeLoop_acknowledged keys w cidr :
  EvDelete cidr errNil ∈ effects (forM_ removeCIDR keys w) →
  NewWorldCIDRKey4 cidr ∉ dom (WorldCIDRsMap (world (forM_ removeCIDR keys w))).
Proof.
  revert w. induction keys as [|k keys IH]; intros w; [by intros ?%elem_of_nil|].
  rewrite forM__cons. cbn [world effects fst snd].
  destruct (decide (k ∈ desiredPrefixes (cidrSets (manager w)))) as [Hk|Hk].
  - rewrite removeCIDR_backed by done. cbn [world effects fst snd]. apply IH.
  - rewrite removeCIDR_stale by done. cbn [world effects fst snd].
    rewrite elem_of_app. intros [Hhead|Hrest]; [|by apply IH].
    set (w1 := setEntries _ _).
    destruct (removeLoop_spec (desiredPrefixes (cidrSets (manager w1))) keys w1 eq_refl)
      as (_ & _ & _ & _ & _ & Hupp & _).
    intros Hin. apply Hupp in Hin. revert Hin. subst w1.
    cbn [WorldCIDRsMap setEntries].
    unfold deleteRecord, deleteLog in Hhead.
    apply elem_of_cons in Hhead as [Heq|Hhead].
    + injection Heq as -> Herr. rewrite NewWorldCIDRKey4_GetCIDR.
      rewrite decide_True by done. rewrite dom_delete_L.
      rewrite elem_of_difference, elem_of_singleton. tauto.
    + apply list_elem_of_singleton in Hhead. intros _. revert Hhead.
      by destruct (decide (_ ≠ errNil)).
Qed.

(** X2 — Acknowledged updates are in effect: whatever else fails in the
    pass, a prefix whose [Add] returned no error is in the table when the
    pass ends, and a prefix whose [Delete] returned no error is not. *)
Theorem acknowledged_updates_hold w cidr :
  (EvAdd cidr errNil ∈ effects (reconcile w) →
   NewWorldCIDRKey4 cidr ∈ dom (WorldCIDRsMap (world (reconcile w)))) ∧
  (EvDelete cidr errNil ∈ effects (reconcile w) →
   NewWorldCIDRKey4 cidr ∉ dom (WorldCIDRsMap (world (reconcile w)))).
Proof.
  rewrite reconcile_run.
  destruct (K8sCacheIsSynced (k8sChecker (manager w))).1; cbn [world effects fst snd].
  2:{ split; intros Hin; apply list_elem_of_singleton in Hin; done. }
  generalize (world (K8sCacheIsSynced_ w)). intros w0.
  destruct (addMissingCIDRs_spec w0)
    as (sets & errs1 & Hp1 & _ & Heff1 & Hm1 & _ & _ & _ & _).
  destruct (removeUnusedCIDRs_spec (world (addMissingCIDRs w0)))
    as (keys & errs2 & _ & _ & Heff2 & _ & _ & _ & Hlow2 & _).
  split.
  - rewrite elem_of_cons, elem_of_app. intros [?|[Hin|Hin]]; [done| |].
    + apply Hlow2, elem_of_intersection. split.
      * revert Hin. rewrite !addMissingCIDRs_run. cbn [world effects fst snd].
        rewrite elem_of_cons. intros [?|Hin]; [done|].
        by apply addLoop_acknowledged.
      * rewrite Heff1 in Hin. apply elem_of_cons in Hin as [?|Hin]; [done|].
        apply elem_of_addRecords, elem_of_missingCIDRs in Hin as [_ Hin].
        rewrite Hm1, <-(desiredPrefixes_Permutation _ _ Hp1).
        rewrite elem_of_list_to_set. by apply list_elem_of_fmap_2.
    + rewrite Heff2 in Hin. apply elem_of_cons in Hin as [?|Hin]; [done|].
      by apply not_add_in_deleteRecords in Hin.
  - rewrite elem_of_cons, elem_of_app. intros [?|[Hin|Hin]]; [done| |].
    + rewrite Heff1 in Hin. apply elem_of_cons in Hin as [?|Hin]; [done|].
      by apply not_delete_in_addRecords in Hin.
    + revert Hin. rewrite !removeUnusedCIDRs_run. cbn [world effects fst snd].
      rewrite elem_of_cons. intros [?|Hin]; [done|].
      by apply removeLoop_acknowledged.
Qed.

(** ** Which table updates a pass asks for *)

(** The prefixes a pass calls [Add] and [Delete] with: the missing ones of the
    sets in the order of their visit, and the stale ones among the keys
    [keys] of the snapshot of phase 2. *)
Lemma reconcile_calls w :
  ∃ sets keys,
    sets ≡ₚ map_to_list (cidrSets (manager w)) ∧
    NoDup keys ∧
    list_to_set keys
      ⊆ dom (WorldCIDRsMap w) ∪ desiredPrefixes (cidrSets (manager w)) ∧
    addCalls (effects (reconcile w))
      = (if (K8sCacheIsSynced (k8sChecker (manager w))).1
         then missingCIDRs (WorldCIDRsMap w) (allCIDRs sets) else []) ∧
    deleteCalls (effects (reconcile w))
      = (if (K8sCacheIsSynced (k8sChecker (manager w))).1
         then GetCIDR <$> staleKeys (desiredPrefixes (cidrSets (manager w))) keys
         else []).
Proof.
  rewrite reconcile_run.
  destruct (K8sCacheIsSynced__frame w) as (Hs & _ & Ht).
  destruct (K8sCacheIsSynced (k8sChecker (manager w))).1; cbn [effects snd].
  2:{ exists (map_to_list (cidrSets (manager w))), [].
      split_and!; first [done | constructor | set_tauto]. }
  revert Hs Ht. generalize (world (K8sCacheIsSynced_ w)). intros w0 Hs Ht.
  destruct (addMissingCIDRs_spec w0)
    as (sets & errs1 & Hp1 & Hlen1 & Heff1 & Hm1 & _ & _ & Hupp1 & _).
  destruct (removeUnusedCIDRs_spec (world (addMissingCIDRs w0)))
    as (keys & errs2 & Hp2 & Hlen2 & Heff2 & _).
  rewrite Hm1, Hs in Hlen2, Heff2. rewrite Hs, Ht in *.
  exists sets, keys. rewrite Heff1, Heff2. split_and!; try done.
  - rewrite Hp2. apply NoDup_fst_map_to_list.
  - etrans; [|exact Hupp1]. intros k.
    by rewrite elem_of_list_to_set, Hp2, elem_of_map_to_list_fst.
  - rewrite !addCalls_cons, addCalls_app, !addCalls_cons. cbn [app].
    by rewrite addCalls_addRecords, addCalls_deleteRecords, app_nil_r.
  - rewrite !deleteCalls_cons, deleteCalls_app, !deleteCalls_cons. cbn [app].
    by rewrite deleteCalls_addRecords, deleteCalls_deleteRecords.
Qed.

(** X3 — A pass asks only for the updates that are needed: every [Add] is
    for a desired prefix the table did not hold when the pass began, every
    [Delete] is for a prefix the table held then and no set lists, and no
    prefix is deleted twice in a pass. *)
Theorem pass_asks_only_for_needed_updates w :
  (∀ cidr, cidr ∈ addCalls (effects (reconcile w)) →
     NewWorldCIDRKey4 cidr ∈ desiredPrefixes (cidrSets (manager w)) ∧
     NewWorldCIDRKey4 cidr ∉ dom (WorldCIDRsMap w)) ∧
  (∀ cidr, cidr ∈ deleteCalls (effects (reconcile w)) →
     NewWorldCIDRKey4 cidr ∈ dom (WorldCIDRsMap w) ∧
     NewWorldCIDRKey4 cidr ∉ desiredPrefixes (cidrSets (manager w))) ∧
  NoDup (deleteCalls (effects (reconcile w))).
Proof.
  destruct (reconcile_calls w) as (sets & keys & Hp & Hnd & Hkeys & -> & ->).
  destruct (K8sCacheIsSynced (k8sChecker (manager w))).1.
  2:{ split_and!; [by intros ? ?%elem_of_nil..|constructor]. }
  split_and!.
  - intros cidr [Hnot Hin]%elem_of_missingCIDRs. split; [|done].
    rewrite <-(desiredPrefixes_Permutation _ _ Hp), elem_of_list_to_set.
    by apply list_elem_of_fmap_2.
  - intros cidr (k & -> & [Hnot Hin]%elem_of_staleKeys)%list_elem_of_fmap.
    rewrite NewWorldCIDRKey4_GetCIDR. split; [|done].
    assert (k ∈ dom (WorldCIDRsMap w) ∪ desiredPrefixes (cidrSets (manager w)))
      as [?|?]%elem_of_union by (by apply Hkeys, elem_of_list_to_set); done.
  - apply (NoDup_fmap_2 _). unfold staleKeys. by apply NoDup_filter.
Qed.

(** The loop of phase 2 over keys that the table holds, each once, never
    asks for the deletion of an absent key. *)
Lemma removeLoop_present keys w cidr :
  NoDup keys →
  (∀ k, k ∈ keys → k ∈ dom (WorldCIDRsMap w)) →
  EvDelete cidr ENOENT ∉ effects (forM_ removeCIDR keys w).
Proof.
  revert w. induction keys as [|k keys IH]; intros w Hnd Hin;
    [by intros ?%elem_of_nil|].
  apply NoDup_cons in Hnd as [Hk Hnd].
  rewrite forM__cons. cbn [world effects fst snd].
  destruct (decide (k ∈ desiredPrefixes (cidrSets (manager w)))) as [Hd|Hd].
  - rewrite removeCIDR_backed by done. cbn [world effects fst snd].
    apply IH; [done|]. intros k' Hk'. apply Hin. by right.
  - rewrite removeCIDR_stale by done. cbn [world effects fst snd].
    rewrite not_elem_of_app. split.
    + assert (k ∈ dom (WorldCIDRsMap w)) as [v Hv]%elem_of_dom
        by (apply Hin; left).
      unfold deleteRecord, deleteLog, deleteErr. rewrite Hv.
      rewrite !not_elem_of_cons.
      destruct (hd false (faults w)); split_and!; try done; apply not_elem_of_nil.
    + apply IH; [done|]. intros k' Hk'. cbn [WorldCIDRsMap setEntries].
      case_decide; [|apply Hin; by right].
      rewrite dom_delete_L, elem_of_difference, elem_of_singleton.
      split; [apply Hin; by right|]. by intros ->.
Qed.

(** X4 — A pass never asks the table to delete a prefix it does not hold: no
    [Delete] of a pass fails for the absence of its key, whichever other
    faults occur. *)
Theorem pass_never_deletes_absent_prefix w cidr :
  EvDelete cidr ENOENT ∉ effects (reconcile w).
Proof.
  rewrite reconcile_run.
  destruct (K8sCacheIsSynced (k8sChecker (manager w))).1; cbn [effects snd].
  2:{ by intros ?%list_elem_of_singleton. }
  generalize (world (K8sCacheIsSynced_ w)). intros w0.
  destruct (addMissingCIDRs_spec w0) as (? & ? & _ & _ & Heff1 & _).
  rewrite not_elem_of_cons, not_elem_of_app. split_and!; [done| |].
  - rewrite Heff1, not_elem_of_cons. split; [done|].
    apply not_delete_in_addRecords.
  - rewrite removeUnusedCIDRs_run. cbn [effects snd].
    rewrite not_elem_of_cons. split; [done|].
    apply removeLoop_present.
    + rewrite shuffle_Permutation. apply NoDup_fst_map_to_list.
    + intros k. rewrite shuffle_Permutation. cbn [WorldCIDRsMap setSeeds].
      by rewrite elem_of_map_to_list_fst.
Qed.

(** ** Events that reach a pass *)

(** The pass an event reaches: its state and its place in the effects of the
    event. *)
Lemma handle_reconciles e w :
  reconciles w e = true →
  ∃ w' pre,
    cidrSets (manager w') = storeAfter (cidrSets (manager w)) e ∧
    k8sChecker (manager w') = k8sChecker (manager w) ∧
    WorldCIDRsMap w' = WorldCIDRsMap w ∧
    effects (handle e w) = pre ++ effects (reconcile w') ∧
    filter isTableCall pre = [] ∧
    WorldCIDRsMap (world (handle e w)) = WorldCIDRsMap (world (reconcile w')).
Proof.
  destruct e as [cidrSet|i|]; cbn [handle reconciles storeAfter]; intros Hrec.
  - rewrite OnAddWorldCIDRSet_run. cbn [world effects fst snd].
    exists (setManager (mkManager (k8sChecker (manager w))
              (<[id cidrSet := cidrSet]> (cidrSets (manager w)))) w).
    eexists [_]. by split_and!.
  - apply bool_decide_eq_true in Hrec as [cidrSet Hi].
    rewrite (OnDeleteWorldCIDRSet_known _ _ _ Hi). cbn [world effects fst snd].
    exists (setManager (mkManager (k8sChecker (manager w))
              (delete i (cidrSets (manager w)))) w).
    eexists [_]. by split_and!.
  - apply bool_decide_eq_true in Hrec.
    rewrite gateStep_run, Hrec. cbn [world effects fst snd].
    by exists w, [].
Qed.

(** X5 — An event that reaches [reconcile] while the oracle reports synced,
    and whose table updates all succeed, leaves in the table exactly the
    desired prefixes of the store as the event has made it: after the
    deletion of a set, a prefix stays if and only if another set lists it. *)
Theorem handled_event_converges e w :
  reconciles w e = true →
  (K8sCacheIsSynced (k8sChecker (manager w))).1 = true →
  Forall succeeded (effects (handle e w)) →
  dom (WorldCIDRsMap (world (handle e w)))
  = desiredPrefixes (storeAfter (cidrSets (manager w)) e).
Proof.
  intros Hrec Hready Hok.
  destruct (handle_reconciles e w Hrec) as (w' & pre & Hs & Hc & _ & Heff & _ & ->).
  rewrite Heff in Hok. apply Forall_app in Hok as [_ Hok].
  rewrite <-Hs. apply pass_converges; [by rewrite Hc|done].
Qed.

Lemma run_app es1 es2 w :
  run (es1 ++ es2) w =
  (tt, world (run es2 (world (run es1 w))),
   effects (run es1 w) ++ effects (run es2 (world (run es1 w)))).
Proof. apply forM__app. Qed.

(** X6 — Recovery: whatever happened before (events handled before
    readiness, passes with failed updates), one later event that reaches
    [reconcile] while the oracle reports synced and whose table updates all
    succeed brings the table to the desired prefixes of the store that all
    the events have built. *)
Theorem later_pass_recovers es e w :
  reconciles (world (run es w)) e = true →
  (K8sCacheIsSynced (k8sChecker (manager (world (run es w))))).1 = true →
  Forall succeeded (effects (handle e (world (run es w)))) →
  dom (WorldCIDRsMap (world (run (es ++ [e]) w)))
  = desiredPrefixes (foldl storeAfter (cidrSets (manager w)) (es ++ [e])).
Proof.
  intros Hrec Hready Hok.
  rewrite run_app. cbn [world fst snd].
  rewrite run_cons. cbn [world fst snd].
  change (world (run [] ?x)) with x.
  destruct (handle_reconciles e _ Hrec) as (w' & pre & Hs & Hc & _ & Heff & _ & ->).
  rewrite Heff in Hok. apply Forall_app in Hok as [_ Hok].
  rewrite foldl_app. cbn [foldl]. rewrite <-run_store, <-Hs.
  apply pass_converges; [by rewrite Hc|done].
Qed.

(** ** The sync gate *)

Lemma handle_gate e w :
  isGateStep e = false → gate (world (handle e w)) = gate w.
Proof.
  destruct e as [cidrSet|i|]; cbn [handle isGateStep]; [| |done]; intros _.
  - rewrite OnAddWorldCIDRSet_run. cbn [world fst snd].
    by rewrite (proj2 (reconcile_frame _)).
  - destruct (cidrSets (manager w) !! i) as [cidrSet|] eqn:Hi.
    + rewrite (OnDeleteWorldCIDRSet_known _ _ _ Hi). cbn [world fst snd].
      by rewrite (proj2 (reconcile_frame _)).
    + by rewrite (OnDeleteWorldCIDRSet_unknown _ _ Hi).
Qed.

(** X7 — The goroutine of the sync gate runs once: the handlers never move
    it, and after it has finished its steps change nothing and have no
    effect, so a run from then on is the run of the handlers' events
    alone. *)
Theorem gate_done_is_final es w :
  gate w = GateDone →
  run es w = run (filter (λ e, isGateStep e = false) es) w ∧
  gate (world (run es w)) = GateDone.
Proof.
  revert w. induction es as [|e es IH]; intros w Hdone; [done|].
  rewrite run_cons. destruct (isGateStep e) eqn:He.
  - rewrite filter_cons_False by (by rewrite He). destruct e; try done.
    cbn [handle]. rewrite gateStep_run, Hdone. cbn [world effects fst snd app].
    destruct (IH w Hdone) as [<- Hg]. split; [symmetry; apply unit_run|done].
  - rewrite filter_cons_True by done. rewrite run_cons.
    assert (gate (world (handle e w)) = GateDone) as Hdone'
      by (by rewrite handle_gate).
    destruct (IH _ Hdone') as [<- Hg]. by cbn [world fst snd].
Qed.

Lemma filter_none {A} (f : A → bool) (l : list A) :
  Forall (λ x, f x = false) l → filter (λ x, f x = true) l = [].
Proof.
  induction 1 as [|x l Hx _ IH]; [done|].
  rewrite filter_cons_False by (by rewrite Hx). exact IH.
Qed.

Lemma addRecord_no_iterate cidr err :
  Forall (λ e, isIterate e = false) (addRecord cidr err).
Proof. unfold addRecord, addLog. case_decide; by repeat constructor. Qed.

Lemma deleteRecord_no_iterate k err :
  Forall (λ e, isIterate e = false) (deleteRecord k err).
Proof. unfold deleteRecord, deleteLog. case_decide; by repeat constructor. Qed.

(** What a call of [reconcile] asks of its collaborators. *)
Lemma reconcile_profile w :
  ∃ rest,
    effects (reconcile w)
      = EvSynced (K8sCacheIsSynced (k8sChecker (manager w))).1 :: rest ∧
    Forall (λ e, isSynced e = false) rest ∧
    length (filter (λ e, isIterate e = true) rest)
      = (if (K8sCacheIsSynced (k8sChecker (manager w))).1 then 2 else 0)%nat.
Proof.
  rewrite reconcile_run.
  destruct (K8sCacheIsSynced (k8sChecker (manager w))).1; cbn [effects snd].
  - generalize (world (K8sCacheIsSynced_ w)). intros w0.
    destruct (addMissingCIDRs_spec w0) as (? & ? & _ & _ & Heff1 & _).
    destruct (removeUnusedCIDRs_spec (world (addMissingCIDRs w0)))
      as (? & ? & _ & _ & Heff2 & _).
    eexists. split; [done|]. rewrite Heff1, Heff2. split.
    + apply Forall_app. split; (constructor; [done|]);
        apply Forall_mjoin_zip_with; auto using addRecord_noSync, deleteRecord_noSync.
    + rewrite filter_app, !filter_cons_True by done.
      rewrite !filter_none
        by (apply Forall_mjoin_zip_with;
            auto using addRecord_no_iterate, deleteRecord_no_iterate).
      done.
  - by exists [].
Qed.

(** X8 — A call of [reconcile] asks the readiness oracle exactly once, before
    anything else, and scans the table twice when the answer is synced (once
    for each phase) and not at all otherwise. *)
Theorem reconcile_asks_once_and_scans_twice w :
  head (effects (reconcile w))
    = Some (EvSynced (K8sCacheIsSynced (k8sChecker (manager w))).1) ∧
  length (filter (λ e, isSynced e = true) (effects (reconcile w))) = 1%nat ∧
  length (filter (λ e, isIterate e = true) (effects (reconcile w)))
    = (if (K8sCacheIsSynced (k8sChecker (manager w))).1 then 2 else 0)%nat.
Proof.
  destruct (reconcile_profile w) as (rest & -> & Hrest & Hit).
  split; [done|].
  rewrite !filter_cons_True by done. rewrite filter_cons_False by done.
  by rewrite (filter_none isSynced) by done.
Qed.

Section gate_latching.
Context `{!Latching O}.


End gate_latching.

(** ** The store *)

Lemma storeAfter_keyedByIdentity store e :
  keyedByIdentity store → keyedByIdentity (storeAfter store e).
Proof.
  intros Hkey. destruct e as [cidrSet|i|]; cbn [storeAfter]; [| |done].
  - by apply map_Forall_insert_2.
  - by apply map_Forall_delete.
Qed.

(** X10 — Every CIDR set is filed under its own identity: this holds of the
    empty store of a new manager and every sequence of events keeps it,
    whatever the readiness and the failures of the table. *)
Theorem store_keyed_by_identity es w :
  keyedByIdentity (cidrSets (manager w)) →
  keyedByIdentity (cidrSets (manager (world (run es w)))).
Proof.
  rewrite run_store. generalize (cidrSets (manager w)). clear w.
  induction es as [|e es IH]; intros store Hkey; [done|].
  cbn [foldl]. by apply IH, storeAfter_keyedByIdentity.
Qed.

End more_runs.

(** ** The further properties at work on concrete processes *)

Lemma acknowledged_updates_hold_witness :
  let w := processOf alwaysSynced [wideA] [net172] [false; true; false; false] in
  EvAdd net10 errNil ∈ effects (reconcile w) ∧
  EvAdd net192 EIO ∈ effects (reconcile w) ∧
  EvDelete net172 errNil ∈ effects (reconcile w) ∧
  NewWorldCIDRKey4 net10 ∈ dom (WorldCIDRsMap (world (reconcile w))) ∧
  NewWorldCIDRKey4 net172 ∉ dom (WorldCIDRsMap (world (reconcile w))).
Proof.
  intros w.
  assert (EvAdd net10 errNil ∈ effects (reconcile w)) as Hadd
    by decide_by_computation.
  assert (EvDelete net172 errNil ∈ effects (reconcile w)) as Hdel
    by decide_by_computation.
  split_and!; [exact Hadd|decide_by_computation|exact Hdel| |].
  - exact (proj1 (acknowledged_updates_hold w net10) Hadd).
  - exact (proj2 (acknowledged_updates_hold w net172) Hdel).
Defined.

Lemma pass_asks_only_for_needed_updates_witness :
  let w := processOf alwaysSynced [setA; setB] [net172; net10_1] [true] in
  net192 ∈ addCalls (effects (reconcile w)) ∧
  net172 ∈ deleteCalls (effects (reconcile w)) ∧
  NewWorldCIDRKey4 net192 ∈ desiredPrefixes (cidrSets (manager w)) ∧
  (NewWorldCIDRKey4 net192 ∉ dom (WorldCIDRsMap w)) ∧
  NewWorldCIDRKey4 net172 ∈ dom (WorldCIDRsMap w) ∧
  (NewWorldCIDRKey4 net172 ∉ desiredPrefixes (cidrSets (manager w))).
Proof.
  intros w.
  assert (net192 ∈ addCalls (effects (reconcile w))) as Hadd
    by decide_by_computation.
  assert (net172 ∈ deleteCalls (effects (reconcile w))) as Hdel
    by decide_by_computation.
  destruct (pass_asks_only_for_needed_updates w) as (Hadds & Hdels & _).
  destruct (Hadds _ Hadd). destruct (Hdels _ Hdel). by split_and!.
Defined.

Lemma handled_event_converges_witness :
  let w := processOf alwaysSynced [setA; setB] [net10; net192] [] in
  reconciles w (DeleteSet idB) = true ∧
  (K8sCacheIsSynced (k8sChecker (manager w))).1 = true ∧
  Forall succeeded (effects (handle (DeleteSet idB) w)) ∧
  dom (WorldCIDRsMap (world (handle (DeleteSet idB) w)))
  = desiredPrefixes (storeAfter (cidrSets (manager w)) (DeleteSet idB)).
Proof.
  intros w.
  assert (reconciles w (DeleteSet idB) = true) as Hrec by (vm_compute; reflexivity).
  assert ((K8sCacheIsSynced (k8sChecker (manager w))).1 = true) as Hready
    by reflexivity.
  assert (Forall succeeded (effects (handle (DeleteSet idB) w))) as Hok
    by decide_by_computation.
  split_and!; [exact Hrec|exact Hready|exact Hok|].
  exact (handled_event_converges (DeleteSet idB) w Hrec Hready Hok).
Defined.

Lemma later_pass_recovers_witness :
  let w := NewWorldCIDRsManager (mkScripted [false; true; true] true)
             (tableOf [net172]) [true; true] [] in
  let es := [AddOrUpdate setA; AddOrUpdate setB] in
  let e := DeleteSet idA in
  filter (λ e, succeeded e = false) (effects (run es w))
    = [EvAdd net10 EIO; EvAdd net10 EIO] ∧
  reconciles (world (run es w)) e = true ∧
  (K8sCacheIsSynced (k8sChecker (manager (world (run es w))))).1 = true ∧
  Forall succeeded (effects (handle e (world (run es w)))) ∧
  dom (WorldCIDRsMap (world (run (es ++ [e]) w)))
  = desiredPrefixes (foldl storeAfter (cidrSets (manager w)) (es ++ [e])).
Proof.
  intros w es e.
  assert (reconciles (world (run es w)) e = true) as Hrec
    by (vm_compute; reflexivity).
  assert ((K8sCacheIsSynced (k8sChecker (manager (world (run es w))))).1 = true)
    as Hready by (vm_compute; reflexivity).
  assert (Forall succeeded (effects (handle e (world (run es w))))) as Hok
    by decide_by_computation.
  split_and!; [vm_compute; reflexivity|exact Hrec|exact Hready|exact Hok|].
  exact (later_pass_recovers es e w Hrec Hready Hok).
Defined.

Lemma gate_done_is_final_witness :
  let w := processOf alwaysSynced [setA] [net172] [] in
  let es := [GateStep; AddOrUpdate setB; GateStep; DeleteSet idA; GateStep] in
  gate w = GateDone ∧
  run es w = run [AddOrUpdate setB; DeleteSet idA] w ∧
  gate (world (run es w)) = GateDone.
Proof.
  intros w es.
  assert (gate w = GateDone) as Hdone by reflexivity.
  split; [exact Hdone|]. exact (gate_done_is_final es w Hdone).
Defined.


(** Without such an oracle the one pass of the sync gate can be lost: the
    poll is answered synced, the question of [reconcile] is not, the pass is
    a no-op and the goroutine ends all the same. *)
Example gate_pass_can_be_lost :
  let w := NewWorldCIDRsManager (mkScripted [true] false) (tableOf [net172]) [] [] in
  effects (run [GateStep; GateStep] w) = [EvSynced true; EvSynced false] ∧
  gate (world (run [GateStep; GateStep] w)) = GateDone.
Proof. intros. split; vm_compute; reflexivity. Qed.

Lemma store_keyed_by_identity_witness :
  let w := NewWorldCIDRsManager neverSynced (tableOf [net172]) [] [] in
  let es := [AddOrUpdate oldA; AddOrUpdate setB; AddOrUpdate setA; DeleteSet idB] in
  keyedByIdentity (cidrSets (manager w)) ∧
  keyedByIdentity (cidrSets (manager (world (run es w)))).
Proof.
  intros w es.
  assert (keyedByIdentity (cidrSets (manager w))) as Hkey
    by apply map_Forall_empty.
  split; [exact Hkey|]. exact (store_keyed_by_identity es w Hkey).
Defined.
